(** * TTC-cli-messanger: the relay server's message broker

    A shallow embedding of the server core of the chat relay, followed by
    the properties of that code. The modules follow the packages of
    [cli-server/internal]: [models] (the bounded message buffer), [utils]
    (the colour palette and the identifier generator), [services] (the chat
    service with its waiter registry), [auth] (the access controller, which
    is the other half of package [services]) and [controllers] (the send
    handler).

    Conventions of the embedding:
    - Go's [int], [int64] and [uint64] are [Z]; wrap-around is written out
      where the code can reach it ([wrap_int64], [wrap_uint64]).
    - [time.Time] is a [Z] (nanoseconds since the Unix epoch) and
      [time.Duration] a [Z] (nanoseconds). Each call of [time.Now()] is an
      explicit argument of the embedded function.
    - A slice is a [list]; a Go [map] is a [gmap]; a pointer to a record that
      is stored in a map or slice is the record itself, updated in place by
      re-inserting it.
    - A run-time panic is [None] of an [option] result.
    - The mutexes serialise the operations; an operation that holds its lock
      for its whole body is one atomic state transformer. *)

From Stdlib Require Import ZArith QArith Lia Ascii.
From stdpp Require Import gmap strings list fin_maps.

Local Open Scope Z_scope.

(** ** Machine integers *)

Definition wrap_uint64 (n : Z) : Z := n mod 2 ^ 64.

Definition wrap_int64 (n : Z) : Z := (n + 2 ^ 63) mod 2 ^ 64 - 2 ^ 63.

Definition max_int64 : Z := 2 ^ 63 - 1.

(** ** Package models: messages and the message buffer *)

Module models.

(** [type Message struct]; [Timestamp] and [ExpireAt] are [time.Time]. *)
Record Message := mkMessage {
  ID : string;
  Username : string;
  Content : string;
  Color : string;
  Timestamp : Z;
  ExpireAt : Z
}.

(** [msg.ExpireAt = t] *)
Definition set_ExpireAt (msg : Message) (t : Z) : Message :=
  {| ID := ID msg; Username := Username msg; Content := Content msg;
     Color := Color msg; Timestamp := Timestamp msg; ExpireAt := t |}.

(** [type MessageBuffer struct] without its mutex. *)
Record MessageBuffer := mkMessageBuffer {
  messages : list Message;
  maxSize : Z;
  ttl : Z
}.

Definition set_messages (mb : MessageBuffer) (l : list Message) : MessageBuffer :=
  {| messages := l; maxSize := maxSize mb; ttl := ttl mb |}.

(** [len(mb.messages)] as a Go [int]. *)
Definition len (l : list Message) : Z := Z.of_nat (length l).

(** [NewMessageBuffer(maxSize, ttl)]: an empty slice. *)
Definition NewMessageBuffer (maxSize ttl : Z) : MessageBuffer :=
  {| messages := []; maxSize := maxSize; ttl := ttl |}.

(** [func (mb *MessageBuffer) Add(msg *Message)]; [now] is the reading of
    [time.Now()]. The slice expression [mb.messages[1:]] is taken only when
    the slice is longer than [maxSize]; it drops the first element (and is
    the empty slice on the empty slice, which [drop 1] also gives). *)
Definition Add (now : Z) (msg : Message) (mb : MessageBuffer) : MessageBuffer :=
  let msg := set_ExpireAt msg (now + ttl mb) in
  let msgs := messages mb ++ [msg] in
  if len msgs >? maxSize mb
  then set_messages mb (drop 1 msgs)
  else set_messages mb msgs.

(** [func (mb *MessageBuffer) getLastMessages(limit int)]. A negative
    [limit] with a non-empty buffer reaches [make([]*Message, limit)],
    which panics. *)
Definition getLastMessages (mb : MessageBuffer) (limit : Z) : option (list Message) :=
  if len (messages mb) =? 0 then Some []
  else if len (messages mb) <=? limit then Some (messages mb)
  else if limit <? 0 then None
  else Some (drop (Z.to_nat (len (messages mb) - limit)) (messages mb)).

(** The loop of [GetAfter]: [startIdx] after ranging over [msgs], whose
    first element has index [i]; [-1] when no identifier matches. *)
Fixpoint scan_startIdx (afterID : string) (msgs : list Message) (i : Z) : Z :=
  match msgs with
  | [] => -1
  | msg :: rest =>
      if String.eqb (ID msg) afterID then i + 1
      else scan_startIdx afterID rest (i + 1)
  end.

(** [func (mb *MessageBuffer) GetAfter(afterID string, limit int)] *)
Definition GetAfter (mb : MessageBuffer) (afterID : string) (limit : Z)
  : option (list Message) :=
  if String.eqb afterID "" then getLastMessages mb limit
  else
    let startIdx := scan_startIdx afterID (messages mb) 0 in
    if (startIdx <? 0) || (startIdx >=? len (messages mb)) then Some []
    else Some (drop (Z.to_nat startIdx) (messages mb)).

(** One tick of [cleanupLoop]: keeps the messages whose expiry is after
    [now], in order. *)
Definition cleanup (now : Z) (mb : MessageBuffer) : MessageBuffer :=
  set_messages mb (filter (fun msg => now < ExpireAt msg) (messages mb)).

(** [func (mb *MessageBuffer) Len() int] *)
Definition Len (mb : MessageBuffer) : Z := len (messages mb).

(** A sequence of [Add] calls, each with its clock reading, oldest first. *)
Definition AddAll (calls : list (Z * Message)) (mb : MessageBuffer) : MessageBuffer :=
  foldl (fun mb c => Add (fst c) (snd c) mb) mb calls.

(** What [Add] stores for the call [c] on a buffer with time-to-live [ttl]. *)
Definition stored (ttl : Z) (c : Z * Message) : Message :=
  set_ExpireAt (snd c) (fst c + ttl).

End models.

(** ** Package utils: the colour palette and the identifier generator *)

Module utils.

(** [var validColors = map[string]bool{...}] *)
Definition validColors : gmap string bool :=
  <["[red]" := true]> (<["[green]" := true]> (<["[yellow]" := true]>
  (<["[blue]" := true]> (<["[magenta]" := true]> (<["[cyan]" := true]>
  (<["[white]" := true]> (<["[black]" := true]> (<["" := true]> ∅)))))))).

(** [func IsValidColor(color string) bool]: a missing key reads as the
    zero value [false]. *)
Definition IsValidColor (color : string) : bool :=
  default false (validColors !! color).

(** The byte of the decimal digit [d]: [byte(d + '0')]. *)
Definition digit_char (d : Z) : Ascii.ascii := Ascii.ascii_of_N (Z.to_N (48 + d)).

(** The digit loop of Go's decimal formatting: the least significant
    digit is written first, at the end of the buffer [acc]; the loop ends
    when the rest is below ten. [fuel] bounds the number of digits. *)
Fixpoint format_digits (fuel : nat) (u : Z) (acc : string) : string :=
  match fuel with
  | O => acc
  | S fuel' =>
      if u <? 10 then String (digit_char u) acc
      else format_digits fuel' (u / 10) (String (digit_char (u mod 10)) acc)
  end.

(** [%d] of a [uint64]: at most twenty digits. *)
Definition FormatUint (u : Z) : string := format_digits 20 u "".

(** [%d] of an [int64]. *)
Definition FormatInt (i : Z) : string :=
  if i <? 0 then String "-"%char (FormatUint (- i)) else FormatUint i.

(** [func GenerateID() string] on the package variable [counter]
    ([uint64]); [now] is [time.Now().UnixNano()]. Returns the identifier
    and the new value of [counter]. *)
Definition GenerateID (now : Z) (counter : Z) : string * Z :=
  let newCounter := wrap_uint64 (counter + 1) in
  ("msg_" +:+ FormatInt now +:+ "_" +:+ FormatUint newCounter, newCounter).

(** Successive calls of [GenerateID], one per clock reading, in arrival
    order. *)
Fixpoint GenerateIDs (clock : list Z) (counter : Z) : list string :=
  match clock with
  | [] => []
  | now :: clock' =>
      let r := GenerateID now counter in
      fst r :: GenerateIDs clock' (snd r)
  end.

(** Three notions used to state the properties of identifiers. The
    numeric value of a string of decimal digits: *)
Fixpoint digits_value (s : string) : Z :=
  match s with
  | EmptyString => 0
  | String c s' =>
      (Z.of_N (Ascii.N_of_ascii c) - 48) * 10 ^ Z.of_nat (String.length s')
      + digits_value s'
  end.

(** every byte of [s] is a decimal digit: *)
Fixpoint all_digits (s : string) : bool :=
  match s with
  | EmptyString => true
  | String c s' =>
      (48 <=? Z.of_N (Ascii.N_of_ascii c)) && (Z.of_N (Ascii.N_of_ascii c) <=? 57)
      && all_digits s'
  end.

(** the byte [c] occurs in [s]: *)
Fixpoint has_byte (c : Ascii.ascii) (s : string) : bool :=
  match s with
  | EmptyString => false
  | String c' s' => Ascii.eqb c' c || has_byte c s'
  end.

End utils.

(** ** Package services: the chat service (broker) *)

Module services.
Import models utils.

(** [errors.New(text)] *)
Definition error := string.

Definition ErrInvalidInput : error := "username and content cannot be empty".
Definition ErrBusy : error := "server is busy".

(** A Go result pair [(value, error)] with exactly one side set. *)
Inductive result (A : Type) : Type :=
| Ok (a : A)
| Err (e : error).
Arguments Ok {A} a.
Arguments Err {A} e.

(** [type ChatService struct] without its mutex. A waiter is a reference
    to a channel of the heap [chans] below. *)
Record ChatService := mkChatService {
  buffer : MessageBuffer;
  waiters : gmap string nat;
  maxWaiters : Z;
  msgCounter : Z
}.

(** The state the service's methods act on: the service, the channels
    made by [WaitForMessages] (reference to number of buffered signals; a
    closed channel has no entry), the next fresh reference, and the package
    variable [utils.counter]. *)
Record World := mkWorld {
  chat : ChatService;
  chans : gmap nat nat;
  next_chan : nat;
  counter : Z
}.

Definition set_buffer (s : ChatService) (b : MessageBuffer) : ChatService :=
  {| buffer := b; waiters := waiters s; maxWaiters := maxWaiters s;
     msgCounter := msgCounter s |}.

Definition set_waiters (s : ChatService) (ws : gmap string nat) : ChatService :=
  {| buffer := buffer s; waiters := ws; maxWaiters := maxWaiters s;
     msgCounter := msgCounter s |}.

Definition set_msgCounter (s : ChatService) (n : Z) : ChatService :=
  {| buffer := buffer s; waiters := waiters s; maxWaiters := maxWaiters s;
     msgCounter := n |}.

Definition set_chat (w : World) (s : ChatService) : World :=
  {| chat := s; chans := chans w; next_chan := next_chan w; counter := counter w |}.

Definition set_chans (w : World) (cs : gmap nat nat) : World :=
  {| chat := chat w; chans := cs; next_chan := next_chan w; counter := counter w |}.

Definition set_counter (w : World) (n : Z) : World :=
  {| chat := chat w; chans := chans w; next_chan := next_chan w; counter := n |}.

(** [func NewChatService(buffer *models.MessageBuffer) *ChatService] *)
Definition NewChatService (buffer : MessageBuffer) : ChatService :=
  {| buffer := buffer; waiters := ∅; maxWaiters := 1000; msgCounter := 0 |}.

(** The state at start-up. *)
Definition NewWorld (buffer : MessageBuffer) : World :=
  {| chat := NewChatService buffer; chans := ∅; next_chan := O; counter := 0 |}.

(** The zero [time.Time] (1 January of year 1) in nanoseconds. *)
Definition zero_time : Z := -62135596800 * 10 ^ 9.

(** [select { case waiter <- struct{}{}: default: }] on a channel of
    capacity one: a full channel is skipped, a closed channel panics. *)
Definition try_send (waiter : nat) (cs : gmap nat nat) : option (gmap nat nat) :=
  match cs !! waiter with
  | None => None
  | Some n => if (n <? 1)%nat then Some (<[waiter := S n]> cs) else Some cs
  end.

(** [func (s *ChatService) notifyWaiters()] *)
Definition notifyWaiters (w : World) : option World :=
  cs ← foldl (fun acc e => acc ≫= try_send (snd e)) (Some (chans w))
             (map_to_list (waiters (chat w)));
  Some (set_chans w cs).

(** [func (s *ChatService) SendMessage(username, content, color, clientID)].
    [t_id], [t_msg] and [t_add] are the readings of the clock in
    [GenerateID], for [Timestamp], and in [Add]. The returned message is
    the one the buffer holds (one pointer), so its expiry is set. *)
Definition SendMessage (username content color clientID : string)
    (t_id t_msg t_add : Z) (w : World) : option (result Message * World) :=
  if String.eqb username "" || String.eqb content "" then
    Some (Err ErrInvalidInput, w)
  else
    let color :=
      if negb (String.eqb color "") && negb (IsValidColor color)
      then "[white]" else color in
    let s := set_msgCounter (chat w) (wrap_int64 (msgCounter (chat w) + 1)) in
    let g := GenerateID t_id (counter w) in
    let msg := {| ID := fst g; Username := username; Content := content;
                  Color := color; Timestamp := t_msg; ExpireAt := zero_time |} in
    let b := Add t_add msg (buffer s) in
    let w := set_counter (set_chat w (set_buffer s b)) (snd g) in
    w ← notifyWaiters w;
    Some (Ok (set_ExpireAt msg (t_add + ttl (buffer s))), w).

(** [func (s *ChatService) GetMessages(afterID string)]: the error is
    always [nil]. *)
Definition GetMessages (afterID : string) (w : World)
  : option (result (list Message)) :=
  msgs ← GetAfter (buffer (chat w)) afterID 50;
  Some (Ok msgs).

(** [WaitForMessages] up to its [select]: the outcome of the first read,
    of the capacity check and of the registration. *)
Inductive wait_entry : Type :=
| Returned (msgs : list Message)
| Busy (e : error)
| Registered (waiter : nat).

(** [func (s *ChatService) WaitForMessages(clientID, afterID, timeout)],
    lines 61 to 73: the channel is made before the capacity check. *)
Definition WaitForMessages_enter (clientID afterID : string) (w : World)
  : option (wait_entry * World) :=
  msgs ← GetAfter (buffer (chat w)) afterID 50;
  if len msgs >? 0 then Some (Returned msgs, w)
  else
    let waiter := next_chan w in
    let w := {| chat := chat w; chans := <[waiter := O]> (chans w);
                next_chan := S waiter; counter := counter w |} in
    if Z.of_nat (size (waiters (chat w))) >=? maxWaiters (chat w) then
      Some (Busy ErrBusy, w)
    else
      Some (Registered waiter,
            set_chat w (set_waiters (chat w) (<[clientID := waiter]> (waiters (chat w))))).

(** Which case of the [select] fires. *)
Inductive wake : Type := Signaled | TimedOut.

(** The deferred function: deregistration, then [close(waiter)]. *)
Definition deregister (clientID : string) (waiter : nat) (w : World) : World :=
  set_chans (set_chat w (set_waiters (chat w) (delete clientID (waiters (chat w)))))
            (delete waiter (chans w)).

(** [WaitForMessages] from its [select] on, lines 75 to 88. The case
    [<-waiter] needs a buffered signal, which it consumes; [None] also
    stands for a case that is not ready. *)
Definition WaitForMessages_resume (clientID afterID : string) (waiter : nat)
    (ev : wake) (w : World) : option (result (list Message) * World) :=
  match ev with
  | Signaled =>
      match chans w !! waiter with
      | Some (S n) =>
          let w := set_chans w (<[waiter := n]> (chans w)) in
          msgs ← GetAfter (buffer (chat w)) afterID 50;
          Some (Ok msgs, deregister clientID waiter w)
      | _ => None
      end
  | TimedOut => Some (Ok [], deregister clientID waiter w)
  end.

(** The operations of the broker, as events of a run. *)
Inductive chat_op : Type :=
| OpSend (username content color clientID : string) (t_id t_msg t_add : Z)
| OpGet (afterID : string)
| OpWaitEnter (clientID afterID : string)
| OpWaitResume (clientID afterID : string) (waiter : nat) (ev : wake)
| OpCleanup (now : Z).

Definition chat_step (op : chat_op) (w : World) : option World :=
  match op with
  | OpSend u c col cid t1 t2 t3 => snd <$> SendMessage u c col cid t1 t2 t3 w
  | OpGet a => GetMessages a w ≫= fun _ => Some w
  | OpWaitEnter cid a => snd <$> WaitForMessages_enter cid a w
  | OpWaitResume cid a h ev => snd <$> WaitForMessages_resume cid a h ev w
  | OpCleanup now => Some (set_chat w (set_buffer (chat w) (cleanup now (buffer (chat w)))))
  end.

Definition chat_run (ops : list chat_op) (w : World) : option World :=
  foldl (fun acc op => acc ≫= chat_step op) (Some w) ops.

(** The registry bound: the number of registered waiters is at most
    [maxWaiters]. *)
Definition registry_bounded (w : World) : Prop :=
  Z.of_nat (size (waiters (chat w))) <= maxWaiters (chat w).

(** Every registered waiter refers to a channel that is not closed. *)
Definition registered_open (w : World) : Prop :=
  forall (clientID : string) (waiter : nat),
    waiters (chat w) !! clientID = Some waiter -> is_Some (chans w !! waiter).

(** A call of [WaitForMessages] that is suspended in its [select]: its
    arguments and the channel it made. *)
Record suspended_wait := mkSuspended {
  sw_clientID : string;
  sw_afterID : string;
  sw_waiter : nat
}.

(** The broker together with the calls suspended on it. *)
Record System := mkSystem {
  world : World;
  suspended : list suspended_wait
}.

(** The events of the broker as the request layer drives it: a wake-up
    resumes a suspended call, named by its position. *)
Inductive sys_op : Type :=
| SysSend (username content color clientID : string) (t_id t_msg t_add : Z)
| SysGet (afterID : string)
| SysWait (clientID afterID : string)
| SysWake (k : nat) (ev : wake)
| SysCleanup (now : Z).

Definition sys_step (op : sys_op) (σ : System) : option System :=
  match op with
  | SysSend u c col cid t1 t2 t3 =>
      r ← SendMessage u c col cid t1 t2 t3 (world σ);
      Some {| world := snd r; suspended := suspended σ |}
  | SysGet a =>
      _ ← GetMessages a (world σ);
      Some σ
  | SysWait cid a =>
      r ← WaitForMessages_enter cid a (world σ);
      match fst r with
      | Registered waiter =>
          Some {| world := snd r;
                  suspended := suspended σ ++ [mkSuspended cid a waiter] |}
      | _ => Some {| world := snd r; suspended := suspended σ |}
      end
  | SysWake k ev =>
      p ← suspended σ !! k;
      r ← WaitForMessages_resume (sw_clientID p) (sw_afterID p) (sw_waiter p) ev (world σ);
      Some {| world := snd r; suspended := delete k (suspended σ) |}
  | SysCleanup now =>
      Some {| world := set_chat (world σ)
                         (set_buffer (chat (world σ)) (cleanup now (buffer (chat (world σ)))));
              suspended := suspended σ |}
  end.

Definition sys_run (ops : list sys_op) (σ : System) : option System :=
  foldl (fun acc op => acc ≫= sys_step op) (Some σ) ops.

(** The system at start-up. *)
Definition NewSystem (buffer : MessageBuffer) : System :=
  {| world := NewWorld buffer; suspended := [] |}.

(** What holds of the registry and the channels between two events: a
    registration belongs to a suspended call; the channel of a suspended call
    is open and older than the next fresh reference; no two suspended calls
    share a channel. *)
Definition sys_inv (σ : System) : Prop :=
  (forall clientID waiter,
      waiters (chat (world σ)) !! clientID = Some waiter ->
      exists p, p ∈ suspended σ /\ sw_clientID p = clientID /\ sw_waiter p = waiter)
  /\ (forall p, p ∈ suspended σ ->
        is_Some (chans (world σ) !! sw_waiter p)
        /\ (sw_waiter p < next_chan (world σ))%nat)
  /\ NoDup (sw_waiter <$> suspended σ).

End services.

(** ** Package services: the access controller *)

Module auth.
Import services.

(** [rate.Limiter] of golang.org/x/time/rate. The library is not part of
    the repository; what the controller needs of a limiter is its
    configuration ([rate.Limit] is a floating-point number, here the rational
    it holds) and how it answers [Allow()]. The state of its token bucket is a
    function of the clock readings of the [Allow()] calls made on it so far,
    which [events] records, latest first. *)
Record Limiter := mkLimiter {
  limit : Q;
  burst : Z;
  events : list Z
}.

(** [rate.NewLimiter(r, b)]: a limiter on which [Allow()] was never
    called. *)
Definition NewLimiter (r : Q) (b : Z) : Limiter :=
  {| limit := r; burst := b; events := [] |}.

(** [type ClientInfo struct] *)
Record ClientInfo := mkClientInfo {
  ID : string;
  FirstSeen : Z;
  LastSeen : Z;
  MessageCount : Z
}.

(** [type AuthService struct] without its mutex. *)
Record AuthService := mkAuthService {
  accessKey : string;
  clients : gmap string ClientInfo;
  rateLimiters : gmap string Limiter;
  rateLimit : Q;
  rateBurst : Z
}.

Definition set_clients (s : AuthService) (cs : gmap string ClientInfo) : AuthService :=
  {| accessKey := accessKey s; clients := cs; rateLimiters := rateLimiters s;
     rateLimit := rateLimit s; rateBurst := rateBurst s |}.

Definition set_rateLimiters (s : AuthService) (ls : gmap string Limiter) : AuthService :=
  {| accessKey := accessKey s; clients := clients s; rateLimiters := ls;
     rateLimit := rateLimit s; rateBurst := rateBurst s |}.

(** [func NewAuthService(accessKey string) *AuthService] *)
Definition NewAuthService (accessKey : string) : AuthService :=
  {| accessKey := accessKey; clients := ∅; rateLimiters := ∅;
     rateLimit := inject_Z 10; rateBurst := 20 |}.

(** [client.LastSeen = now; client.MessageCount++] *)
Definition touch (now : Z) (client : ClientInfo) : ClientInfo :=
  {| ID := ID client; FirstSeen := FirstSeen client; LastSeen := now;
     MessageCount := wrap_int64 (MessageCount client + 1) |}.

(** [func (s *AuthService) ValidateAccess(key, clientID string) bool] *)
Definition ValidateAccess (key clientID : string) (now : Z) (s : AuthService)
  : bool * AuthService :=
  if negb (String.eqb key (accessKey s)) then (false, s)
  else if String.eqb clientID "" then (false, s)
  else
    match clients s !! clientID with
    | Some client =>
        (true, set_clients s (<[clientID := touch now client]> (clients s)))
    | None =>
        let s1 := set_clients s
          (<[clientID := {| ID := clientID; FirstSeen := now; LastSeen := now;
                            MessageCount := 1 |}]> (clients s)) in
        (true, set_rateLimiters s1
          (<[clientID := NewLimiter (rateLimit s) (rateBurst s)]> (rateLimiters s1)))
    end.

(** One iteration of the loop of [CleanupOldClients] on the entry
    [(id, client)] of [s.clients]. *)
Definition sweep_entry (now maxAge : Z) (s : AuthService) (e : string * ClientInfo)
  : AuthService :=
  if now - LastSeen (snd e) >? maxAge then
    set_rateLimiters (set_clients s (delete (fst e) (clients s)))
                     (delete (fst e) (rateLimiters s))
  else s.

(** One tick of [CleanupOldClients(maxAge)]: the loop over the entries of
    [s.clients]. An iteration deletes only the entry it visits, so every
    entry is visited with the value it had when the loop began. *)
Definition CleanupOldClients_tick (now maxAge : Z) (s : AuthService) : AuthService :=
  foldl (sweep_entry now maxAge) s (map_to_list (clients s)).

(** [func (s *AuthService) GetClientCount() int] *)
Definition GetClientCount (s : AuthService) : Z := Z.of_nat (size (clients s)).

Section RateLimiter.

(** The verdict of [limiter.Allow()] at the clock reading [now]: the
    token-bucket algorithm of the library. *)
Variable allows : Limiter -> Z -> bool.

(** [limiter.Allow()]: the verdict and the limiter after the call. *)
Definition Allow (limiter : Limiter) (now : Z) : bool * Limiter :=
  (allows limiter now,
   {| limit := limit limiter; burst := burst limiter;
      events := now :: events limiter |}).

(** [func (s *AuthService) CheckRateLimit(clientID string) bool]. The
    call of [Allow()] changes the limiter behind the pointer the map holds;
    the map keeps its keys. *)
Definition CheckRateLimit (clientID : string) (now : Z) (s : AuthService)
  : bool * AuthService :=
  match rateLimiters s !! clientID with
  | None => (true, s)
  | Some limiter =>
      let r := Allow limiter now in
      (fst r, set_rateLimiters s (<[clientID := snd r]> (rateLimiters s)))
  end.

(** [n] consecutive calls of [CheckRateLimit] for one caller; the
    verdicts in call order and the final state. *)
Fixpoint CheckRateLimit_repeat (clientID : string) (clock : list Z) (s : AuthService)
  : list bool * AuthService :=
  match clock with
  | [] => ([], s)
  | now :: clock' =>
      let r := CheckRateLimit clientID now s in
      let rs := CheckRateLimit_repeat clientID clock' (snd r) in
      (fst r :: fst rs, snd rs)
  end.

(** The operations of the access controller, as events of a run; a
    sweep is either a whole tick or a single iteration of its loop. *)
Inductive auth_op : Type :=
| OpValidate (key clientID : string) (now : Z)
| OpCheckRate (clientID : string) (now : Z)
| OpSweepTick (now maxAge : Z)
| OpSweepEntry (now maxAge : Z) (id : string).

Definition auth_step (s : AuthService) (op : auth_op) : AuthService :=
  match op with
  | OpValidate key id now => snd (ValidateAccess key id now s)
  | OpCheckRate id now => snd (CheckRateLimit id now s)
  | OpSweepTick now maxAge => CleanupOldClients_tick now maxAge s
  | OpSweepEntry now maxAge id =>
      match clients s !! id with
      | Some client => sweep_entry now maxAge s (id, client)
      | None => s
      end
  end.

Definition auth_run (ops : list auth_op) (s : AuthService) : AuthService :=
  foldl auth_step s ops.

End RateLimiter.

End auth.

(** ** Package controllers: what the send handler does around [SendMessage] *)

Module controllers.
Import models services auth.

(** [SendController.Handle] after the request is decoded: access check,
    rate check, default colour, [SendMessage]. The result is the HTTP
    status and the created message, if any. *)
Definition SendController_Handle (allows : Limiter -> Z -> bool)
    (AccessKey ClientID Username Content Color : string)
    (t_auth t_rate t_id t_msg t_add : Z) (a : AuthService) (w : World)
  : option (Z * option Message * AuthService * World) :=
  let v := ValidateAccess AccessKey ClientID t_auth a in
  if negb (fst v) then Some (401, None, snd v, w)
  else
    let r := CheckRateLimit allows ClientID t_rate (snd v) in
    if negb (fst r) then Some (429, None, snd r, w)
    else
      let Color := if String.eqb Color "" then "[white]" else Color in
      res ← SendMessage Username Content Color ClientID t_id t_msg t_add w;
      match fst res with
      | Err _ => Some (500, None, snd r, snd res)
      | Ok msg => Some (200, Some msg, snd r, snd res)
      end.

End controllers.

(** ** Notions used to state further properties of the buffer *)

Module notions.
Import models.

(** The expiry times do not decrease along the sequence. *)
Definition expiry_ordered (l : list Message) : Prop :=
  forall (i j : nat) (m1 m2 : Message),
    (i <= j)%nat -> l !! i = Some m1 -> l !! j = Some m2 ->
    ExpireAt m1 <= ExpireAt m2.

(** The clock readings of a run of [Add] calls do not decrease. *)
Definition clock_ordered (calls : list (Z * Message)) : Prop :=
  forall (i j : nat) (c1 c2 : Z * Message),
    (i <= j)%nat -> calls !! i = Some c1 -> calls !! j = Some c2 ->
    fst c1 <= fst c2.

(** The identifier [GenerateID] builds from a clock reading and a
    counter value. *)
Definition id_of (t c : Z) : string :=
  "msg_" +:+ utils.FormatInt t +:+ "_" +:+ utils.FormatUint c.

(** Every stored identifier was generated with a counter value the
    generator has already passed, and no two stored identifiers are equal. *)
Definition generated_ids (w : services.World) : Prop :=
  0 <= services.counter w
  /\ NoDup (ID <$> messages (services.buffer (services.chat w)))
  /\ forall m, m ∈ messages (services.buffer (services.chat w)) ->
       exists t c, ID m = id_of t c /\ 0 <= c <= services.counter w.

End notions.

(** ** Package services: the statistics of the chat service *)

Module stats.
Import models services.

(** The map [GetStats] returns: its three entries. *)
Record Stats := mkStats {
  total_messages : Z;
  waiting_clients : Z;
  max_waiters : Z
}.

(** [func (s *ChatService) GetStats() map[string]interface{}] *)
Definition GetStats (w : World) : Stats :=
  {| total_messages := Len (buffer (chat w));
     waiting_clients := Z.of_nat (size (waiters (chat w)));
     max_waiters := maxWaiters (chat w) |}.

End stats.

(** ** Runs of the access controller for one caller *)

Module auth_runs.
Import auth.

(** Successive calls of [ValidateAccess] with one key and one caller
    identifier, one per clock reading. *)
Definition ValidateAccess_all (key clientID : string) (clock : list Z) (s : AuthService)
  : AuthService :=
  foldl (fun s now => snd (ValidateAccess key clientID now s)) s clock.

(** [now.Sub(client.LastSeen) > maxAge] *)
Definition stale (now maxAge : Z) (client : ClientInfo) : bool :=
  now - LastSeen client >? maxAge.

End auth_runs.

(** ** Package utils: colour normalisation *)

Module colors.
Import utils.

(** [strings.HasPrefix(s, prefix)] *)
Definition HasPrefix (s prefix : string) : bool := String.prefix prefix s.

(** [strings.HasSuffix(s, suffix)]:
    [len(s) >= len(suffix) && s[len(s)-len(suffix):] == suffix] *)
Definition HasSuffix (s suffix : string) : bool :=
  (String.length suffix <=? String.length s)%nat
  && String.eqb (String.substring (String.length s - String.length suffix)
                                  (String.length suffix) s) suffix.

(** [func NormalizeColor(color string) string] *)
Definition NormalizeColor (color : string) : string :=
  if String.eqb color "" then "[white]"
  else
    let color := if negb (HasPrefix color "[") then "[" +:+ color else color in
    let color := if negb (HasSuffix color "]") then color +:+ "]" else color in
    if default false (validColors !! color) then color else "[white]".

(** The palette without its empty entry. *)
Definition tags : list string :=
  ["[red]"; "[green]"; "[yellow]"; "[blue]"; "[magenta]"; "[cyan]"; "[white]"; "[black]"].

End colors.

(** ** Package models: the wire format; package controllers: the poll handler *)

Module wire.
Import models services auth.

(** [func (m *Message) ToClientFormat() map[string]interface{}]. The three
    entries of the map literal are stored in the order they are written, so
    an entry written later replaces an earlier one with the same key. All
    three values are strings. *)
Definition ToClientFormat (m : Message) : gmap string string :=
  <["id" := models.ID m]> (<["color" := Color m]> (<[Username m := Content m]> ∅)).

(** What [PollController.Handle] answers for the result of
    [WaitForMessages]: the HTTP status and the body. *)
Definition poll_response (r : result (list Message)) : Z * list (gmap string string) :=
  match r with
  | Err _ => (500, [])
  | Ok messages =>
      if len messages =? 0 then (204, [])
      else (200, ToClientFormat <$> messages)
  end.

(** [PollController.Handle] up to the [select] of [WaitForMessages]: a
    response, or the call is suspended on its channel. *)
Inductive poll_entry : Type :=
| PollResponded (status : Z) (body : list (gmap string string))
| PollSuspended (waiter : nat).

(** [func (c *PollController) Handle(w, r)] for a GET request with the
    query values [access_key], [client_id] and [last_id], up to the [select]. *)
Definition PollController_enter (accessKey clientID lastID : string) (t_auth : Z)
    (a : AuthService) (w : World) : option (poll_entry * AuthService * World) :=
  let v := ValidateAccess accessKey clientID t_auth a in
  if negb (fst v) then Some (PollResponded 401 [], snd v, w)
  else
    r ← WaitForMessages_enter clientID lastID w;
    match fst r with
    | Returned messages =>
        let p := poll_response (Ok messages) in
        Some (PollResponded (fst p) (snd p), snd v, snd r)
    | Busy e =>
        let p := poll_response (Err e) in
        Some (PollResponded (fst p) (snd p), snd v, snd r)
    | Registered waiter => Some (PollSuspended waiter, snd v, snd r)
    end.

(** [PollController.Handle] from the [select] of [WaitForMessages] on. *)
Definition PollController_resume (clientID lastID : string) (waiter : nat) (ev : wake)
    (w : World) : option (Z * list (gmap string string) * World) :=
  r ← WaitForMessages_resume clientID lastID waiter ev w;
  Some (poll_response (fst r), snd r).

End wire.

(** ** The client: reading a poll response, and the poll loop *)

Module client.

(** [type pollMessage struct]; [Timestamp] is the text handed to the
    decoder of [time.Time], if the entry has one. *)
Record pollMessage := mkPollMessage {
  Username : string;
  Content : string;
  Color : string;
  ID : string;
  Timestamp : option string
}.

(** [var knownPollKeys = map[string]bool{...}] *)
Definition knownPollKeys : gmap string bool :=
  <["color" := true]> (<["id" := true]> (<["timestamp" := true]> ∅)).

(** The body of the loop of [parsePollMessages] for one decoded object
    whose values are JSON strings: the fixed fields, then the first key that
    is not a known one, in the order the map is ranged over; [None] when the
    entry is skipped as malformed. *)
Definition parsePollEntry (raw : gmap string string) : option pollMessage :=
  let color := default "" (raw !! "color") in
  let id := default "" (raw !! "id") in
  let dynamic :=
    filter (fun kv : string * string => default false (knownPollKeys !! fst kv) = false)
           (map_to_list raw) in
  let user := match dynamic with [] => ("", "") | kv :: _ => kv end in
  if String.eqb (fst user) "" || String.eqb (snd user) "" || String.eqb id "" then None
  else Some {| Username := fst user; Content := snd user; Color := color; ID := id;
               Timestamp := raw !! "timestamp" |}.

(** [func parsePollMessages(data []byte)] on the decoded array. *)
Definition parsePollMessages (rawList : list (gmap string string)) : list pollMessage :=
  omap parsePollEntry rawList.

(** The variables of [pollLoop]; durations in nanoseconds. *)
Record loop_state := mkLoop {
  backoff : Z;
  firstConnect : bool;
  wasConnected : bool
}.

Definition second : Z := 1000000000.
Definition maxBackoff : Z := 30 * second.

(** What [pollLoop] hands to [notifyStatus]: the flag and which message. *)
Inductive notice : Type :=
| CannotReach
| ConnectionLost (backoff : Z)
| Connected.

Definition connected_flag (n : notice) : bool :=
  match n with Connected => true | _ => false end.

(** [func min(a, b time.Duration) time.Duration] *)
Definition min (a b : Z) : Z := if a <? b then a else b.

(** The state of [pollLoop] before its first iteration. *)
Definition pollLoop_init : loop_state :=
  {| backoff := 1 * second; firstConnect := true; wasConnected := false |}.

(** One iteration of [pollLoop] that is not cut short by [Stop]: [ok]
    tells whether [poll] returned without error. The notices of the
    iteration and the variables after it. *)
Definition pollLoop_step (ok : bool) (st : loop_state) : list notice * loop_state :=
  if negb ok then
    (if firstConnect st then [CannotReach]
     else if wasConnected st then [ConnectionLost (backoff st)]
     else [],
     {| backoff := min (wrap_int64 (backoff st * 2)) maxBackoff;
        firstConnect := firstConnect st;
        wasConnected := false |})
  else
    (if firstConnect st || negb (wasConnected st) then [Connected] else [],
     {| backoff := 1 * second; firstConnect := false; wasConnected := true |}).

(** The iterations of [pollLoop] for the outcomes [oks] of its polls. *)
Fixpoint pollLoop_run (oks : list bool) (st : loop_state) : list notice * loop_state :=
  match oks with
  | [] => ([], st)
  | ok :: oks' =>
      let r := pollLoop_step ok st in
      let rs := pollLoop_run oks' (snd r) in
      (fst r ++ fst rs, snd rs)
  end.



End client.

(** * Properties of the message buffer *)

Module StoreSpec.
Import models services.

Lemma len_app (l1 l2 : list Message) : len (l1 ++ l2) = len l1 + len l2.
Proof. unfold len. rewrite length_app. lia. Qed.

Lemma eqb_empty_false (s : string) : s <> "" -> String.eqb s "" = false.
Proof. intros H. now apply String.eqb_neq. Qed.

(** The scan stops at the first message that carries the identifier. *)
Lemma scan_startIdx_first (afterID : string) (older : list Message) :
  forall (m : Message) (newer : list Message) (i : Z),
    (forall x, x ∈ older -> ID x <> afterID) ->
    ID m = afterID ->
    scan_startIdx afterID (older ++ m :: newer) i = i + len older + 1.
Proof.
  induction older as [|x older IH]; intros m newer i Hold Hm; simpl.
  - rewrite (proj2 (String.eqb_eq _ _) Hm). unfold len. simpl. lia.
  - assert (Hx : String.eqb (ID x) afterID = false).
    { apply String.eqb_neq, Hold. left. }
    rewrite Hx, IH; [| intros y Hy; apply Hold; now right | exact Hm].
    unfold len. simpl length. lia.
Qed.

(** The scan yields [-1] when no message carries the identifier. *)
Lemma scan_startIdx_absent (afterID : string) (msgs : list Message) :
  forall i : Z,
    (forall x, x ∈ msgs -> ID x <> afterID) ->
    scan_startIdx afterID msgs i = -1.
Proof.
  induction msgs as [|x msgs IH]; intros i Habs; simpl; [reflexivity|].
  assert (Hx : String.eqb (ID x) afterID = false).
  { apply String.eqb_neq, Habs. left. }
  rewrite Hx. apply IH. intros y Hy. apply Habs. now right.
Qed.

(** [getLastMessages] with a limit that is not negative: the last
    [limit] messages, never a panic. *)
Lemma getLastMessages_nonneg (mb : MessageBuffer) (limit : Z) :
  0 <= limit ->
  getLastMessages mb limit
  = Some (drop (length (messages mb) - Z.to_nat limit) (messages mb)).
Proof.
  intros Hl. unfold getLastMessages, len.
  destruct (Z.eqb_spec (Z.of_nat (length (messages mb))) 0) as [H0|H0].
  - destruct (messages mb); [reflexivity | simpl in H0; lia].
  - destruct (Z.leb_spec (Z.of_nat (length (messages mb))) limit) as [Hle|Hgt].
    + replace (length (messages mb) - Z.to_nat limit)%nat with O by lia.
      reflexivity.
    + destruct (Z.ltb_spec limit 0) as [Hneg|_]; [lia|].
      do 2 f_equal. lia.
Qed.

(** [GetAfter] never panics with the limit of the chat service. *)
Lemma GetAfter_total (mb : MessageBuffer) (afterID : string) (limit : Z) :
  0 <= limit -> is_Some (GetAfter mb afterID limit).
Proof.
  intros Hl. unfold GetAfter.
  destruct (String.eqb afterID "").
  - rewrite getLastMessages_nonneg by exact Hl. eauto.
  - destruct (_ || _); eauto.
Qed.

(** What one [Add] does to the sequence. *)
Lemma Add_messages (now : Z) (msg : Message) (mb : MessageBuffer) :
  1 <= maxSize mb ->
  messages (Add now msg mb)
  = (if len (messages mb) <? maxSize mb then messages mb else drop 1 (messages mb))
    ++ [set_ExpireAt msg (now + ttl mb)].
Proof.
  intros HC. unfold Add. rewrite len_app. unfold len at 2. simpl length.
  destruct (Z.gtb_spec (len (messages mb) + Z.of_nat 1) (maxSize mb)) as [Hgt|Hle];
    destruct (Z.ltb_spec (len (messages mb)) (maxSize mb)) as [Hlt|Hge];
    try lia; simpl; [|reflexivity].
  destruct (messages mb) as [|x l] eqn:E; [unfold len in Hge; simpl in Hge; lia|].
  reflexivity.
Qed.

Lemma Add_maxSize (now : Z) (msg : Message) (mb : MessageBuffer) :
  maxSize (Add now msg mb) = maxSize mb.
Proof. unfold Add. now destruct (_ >? _). Qed.

Lemma Add_ttl (now : Z) (msg : Message) (mb : MessageBuffer) :
  ttl (Add now msg mb) = ttl mb.
Proof. unfold Add. now destruct (_ >? _). Qed.

Lemma AddAll_snoc (calls : list (Z * Message)) (c : Z * Message) (mb : MessageBuffer) :
  AddAll (calls ++ [c]) mb = Add (fst c) (snd c) (AddAll calls mb).
Proof. unfold AddAll. now rewrite foldl_app. Qed.

(** The window invariant of a run of [Add] calls from the empty buffer. *)
Lemma AddAll_window (C t : Z) (calls : list (Z * Message)) :
  1 <= C ->
  let mb := AddAll calls (NewMessageBuffer C t) in
  maxSize mb = C /\ ttl mb = t /\
  messages mb = drop (length calls - Z.to_nat C) (stored t <$> calls).
Proof.
  intros HC. induction calls as [|c calls IH] using rev_ind; simpl.
  - repeat split; reflexivity.
  - destruct IH as (IHmax & IHttl & IHmsgs).
    rewrite AddAll_snoc, Add_maxSize, Add_ttl.
    repeat split; try assumption.
    rewrite Add_messages by lia. rewrite IHmax, IHttl, IHmsgs.
    rewrite fmap_app, length_app. simpl.
    unfold len. rewrite length_drop, length_fmap.
    fold (stored t c).
    destruct (Z.ltb_spec (Z.of_nat (length calls - (length calls - Z.to_nat C))) C)
      as [Hlt|Hge].
    + replace (length calls - Z.to_nat C)%nat with O by lia.
      replace (length calls + 1 - Z.to_nat C)%nat with O by lia.
      reflexivity.
    + rewrite drop_drop.
      replace (length calls + 1 - Z.to_nat C)%nat
        with (length calls - Z.to_nat C + 1)%nat by lia.
      rewrite drop_app_le; [reflexivity | rewrite length_fmap; lia].
Qed.

(** A sweep keeps the survivors in their order and never lengthens the
    sequence, so the capacity bound survives it. *)
Lemma cleanup_sublist (now : Z) (mb : MessageBuffer) :
  messages (cleanup now mb) `sublist_of` messages mb
  /\ len (messages (cleanup now mb)) <= len (messages mb)
  /\ (forall msg, msg ∈ messages (cleanup now mb) -> now < ExpireAt msg).
Proof.
  unfold cleanup, len. simpl. split; [apply sublist_filter|]. split.
  - pose proof (length_filter (fun msg => now < ExpireAt msg) (messages mb)). lia.
  - intros msg Hin. now apply list_elem_of_filter in Hin as [H _].
Qed.

(** C1. [ReadSince] is [GetAfter]. For a limit that is not negative: with
    the empty cursor the result is the suffix of the stored sequence of
    length [min limit (number stored)], in stored (oldest-first) order, so
    at most [limit] messages and all of them when no more than [limit]
    exist; with a non-empty cursor carried by a stored message (the scan
    stops at the first such message) the result is every message stored
    after it, in order, whatever the limit is. *)
Theorem C1_GetAfter_read_since (mb : MessageBuffer) (limit : Z) :
  0 <= limit ->
  (exists res older,
      GetAfter mb "" limit = Some res
      /\ messages mb = older ++ res
      /\ len res = Z.min limit (len (messages mb))
      /\ len res <= limit
      /\ (len (messages mb) <= limit -> res = messages mb))
  /\ (forall afterID older m newer,
        afterID <> "" ->
        messages mb = older ++ m :: newer ->
        ID m = afterID ->
        (forall x, x ∈ older -> ID x <> afterID) ->
        GetAfter mb afterID limit = Some newer).
Proof.
  intros Hl. split.
  - exists (drop (length (messages mb) - Z.to_nat limit) (messages mb)),
           (take (length (messages mb) - Z.to_nat limit) (messages mb)).
    assert (Hlen : len (drop (length (messages mb) - Z.to_nat limit) (messages mb))
                   = Z.min limit (len (messages mb))).
    { unfold len. rewrite length_drop. lia. }
    repeat split.
    + unfold GetAfter. simpl. now apply getLastMessages_nonneg.
    + now rewrite take_drop.
    + exact Hlen.
    + lia.
    + intros Hle. unfold len in Hle.
      replace (length (messages mb) - Z.to_nat limit)%nat with O by lia.
      reflexivity.
  - intros afterID older m newer Hne Hsplit Hm Hfirst.
    unfold GetAfter. rewrite (eqb_empty_false _ Hne), Hsplit.
    rewrite (scan_startIdx_first afterID older m newer 0 Hfirst Hm).
    rewrite len_app. unfold len. simpl length.
    destruct (Z.ltb_spec (0 + Z.of_nat (length older) + 1) 0) as [Hneg|_]; [lia|].
    simpl orb.
    destruct (Z.geb_spec (0 + Z.of_nat (length older) + 1)
                         (Z.of_nat (length older) + Z.of_nat (S (length newer))))
      as [Hge|Hlt].
    + destruct newer; [reflexivity | simpl in Hge; lia].
    + f_equal.
      replace (Z.to_nat (0 + Z.of_nat (length older) + 1))
        with (length older + 1)%nat by lia.
      rewrite <- drop_drop, drop_app_length. reflexivity.
Qed.

(** The unbounded branch at work: three messages follow the cursor and
    all three are returned for the limit one. *)
Example GetAfter_cursor_exceeds_limit :
  let m i := mkMessage i "u" "c" "" 0 0 in
  GetAfter (mkMessageBuffer [m "a"; m "b"; m "c"; m "d"] 10 60) "a" 1
  = Some [m "b"; m "c"; m "d"].
Proof. reflexivity. Qed.

(** C2. A run of [Add] calls from the empty buffer of capacity [C >= 1]:
    the length never exceeds [C]; the buffer holds, in insertion order, the
    last [min C n] of the [n] appended messages (each with the expiry [Add]
    gave it); and a further [Add] appends at the end, removing exactly the
    first (oldest) entry when, and only when, the buffer is full. *)
Theorem C2_Add_sliding_window (C t : Z) (calls : list (Z * Message)) :
  1 <= C ->
  let mb := AddAll calls (NewMessageBuffer C t) in
  len (messages mb) <= C
  /\ len (messages mb) = Z.min C (Z.of_nat (length calls))
  /\ messages mb = drop (length calls - Z.to_nat C) (stored t <$> calls)
  /\ (forall now msg,
        messages (Add now msg mb)
        = (if len (messages mb) <? C then messages mb else drop 1 (messages mb))
          ++ [set_ExpireAt msg (now + t)]).
Proof.
  intros HC mb.
  destruct (AddAll_window C t calls HC) as (Hmax & Httl & Hmsgs).
  fold mb in Hmax, Httl, Hmsgs.
  assert (Hlen : len (messages mb) = Z.min C (Z.of_nat (length calls))).
  { rewrite Hmsgs. unfold len. rewrite length_drop, length_fmap. lia. }
  repeat split.
  - lia.
  - exact Hlen.
  - exact Hmsgs.
  - intros now msg. rewrite Add_messages by lia. now rewrite Hmax, Httl.
Qed.

(** C7. A non-empty cursor that no stored message carries: [GetAfter]
    returns the empty sequence (for every limit, without a panic), and
    [GetMessages] returns it with a nil error. *)
Theorem C7_GetAfter_unknown_cursor (w : World) (afterID : string) (limit : Z) :
  afterID <> "" ->
  (forall x, x ∈ messages (buffer (chat w)) -> ID x <> afterID) ->
  GetAfter (buffer (chat w)) afterID limit = Some []
  /\ GetMessages afterID w = Some (Ok []).
Proof.
  intros Hne Habs.
  assert (H : forall l, GetAfter (buffer (chat w)) afterID l = Some []).
  { intros l. unfold GetAfter. rewrite (eqb_empty_false _ Hne).
    rewrite (scan_startIdx_absent afterID _ 0 Habs). reflexivity. }
  split; [apply H|]. unfold GetMessages. now rewrite H.
Qed.

(** A concrete read: a buffer of three messages, the limit two, the
    empty cursor and the cursor of the first message. *)
Lemma C1_witness :
  0 <= 2
  /\ (exists res,
        GetAfter (mkMessageBuffer [mkMessage "a" "u" "c" "" 0 0;
                                   mkMessage "b" "u" "c" "" 0 0;
                                   mkMessage "c" "u" "c" "" 0 0] 10 60) "" 2
        = Some res /\ len res = 2)
  /\ GetAfter (mkMessageBuffer [mkMessage "a" "u" "c" "" 0 0;
                                mkMessage "b" "u" "c" "" 0 0;
                                mkMessage "c" "u" "c" "" 0 0] 10 60) "a" 2
     = Some [mkMessage "b" "u" "c" "" 0 0; mkMessage "c" "u" "c" "" 0 0].
Proof.
  pose (m := fun i => mkMessage i "u" "c" "" 0 0).
  pose (mb := mkMessageBuffer [m "a"; m "b"; m "c"] 10 60).
  fold (m "a") (m "b") (m "c"). fold mb.
  destruct (C1_GetAfter_read_since mb 2) as [(res & older & H1 & _ & H3 & _) H4]; [lia|].
  split; [lia|]. split.
  - exists res. split; [exact H1 | rewrite H3; reflexivity].
  - apply (H4 "a" [] (m "a") [m "b"; m "c"]).
    + discriminate.
    + reflexivity.
    + reflexivity.
    + intros x Hx. inversion Hx.
Defined.

(** A concrete run: three appends to a buffer of capacity two leave the
    last two messages. *)
Lemma C2_witness :
  1 <= 2
  /\ messages (AddAll [(1, mkMessage "a" "u" "c" "" 0 0);
                       (2, mkMessage "b" "u" "c" "" 0 0);
                       (3, mkMessage "c" "u" "c" "" 0 0)] (NewMessageBuffer 2 60))
     = [mkMessage "b" "u" "c" "" 0 62; mkMessage "c" "u" "c" "" 0 63].
Proof.
  split; [lia|].
  destruct (C2_Add_sliding_window 2 60 [(1, mkMessage "a" "u" "c" "" 0 0);
                                        (2, mkMessage "b" "u" "c" "" 0 0);
                                        (3, mkMessage "c" "u" "c" "" 0 0)])
    as (_ & _ & H & _); [lia|].
  rewrite H. reflexivity.
Defined.

(** A concrete read: a buffer of two messages and a cursor that neither
    carries. *)
Lemma C7_witness :
  "evicted" <> ""
  /\ GetAfter (mkMessageBuffer [mkMessage "a" "u" "c" "" 0 0;
                                mkMessage "b" "u" "c" "" 0 0] 10 60) "evicted" 50
     = Some []
  /\ GetMessages "evicted"
       (NewWorld (mkMessageBuffer [mkMessage "a" "u" "c" "" 0 0;
                                   mkMessage "b" "u" "c" "" 0 0] 10 60))
     = Some (Ok []).
Proof.
  split; [discriminate|].
  apply (C7_GetAfter_unknown_cursor
           (NewWorld (mkMessageBuffer [mkMessage "a" "u" "c" "" 0 0;
                                       mkMessage "b" "u" "c" "" 0 0] 10 60))
           "evicted" 50); [discriminate|].
  intros x Hx. simpl in Hx.
  apply elem_of_cons in Hx as [->|Hx]; [discriminate|].
  apply elem_of_cons in Hx as [->|Hx]; [discriminate|].
  inversion Hx.
Defined.

End StoreSpec.

(** * Properties of the chat service *)

Module BrokerSpec.
Import models utils services controllers.

Lemma orb_eqb_empty (username content : string) :
  String.eqb username "" || String.eqb content "" = true
  <-> username = "" \/ content = "".
Proof.
  rewrite orb_true_iff. now rewrite !String.eqb_eq.
Qed.

(** The notification loop succeeds on open channels and closes none. *)
Lemma notify_fold_open (l : list (string * nat)) :
  forall cs : gmap nat nat,
    (forall e, e ∈ l -> is_Some (cs !! snd e)) ->
    exists cs', foldl (fun acc e => acc ≫= try_send (snd e)) (Some cs) l = Some cs'
                /\ dom cs' = dom cs.
Proof.
  induction l as [|e l IH]; intros cs Hopen; simpl.
  - now exists cs.
  - destruct (Hopen e) as [n Hn]; [left|].
    unfold try_send at 2. rewrite Hn.
    destruct (n <? 1)%nat.
    + destruct (IH (<[snd e := S n]> cs)) as (cs' & Hf & Hd).
      { intros e' He'. rewrite lookup_insert. case_decide; [eauto|].
        apply Hopen. now right. }
      exists cs'. split; [exact Hf|]. rewrite Hd, dom_insert_L.
      apply subseteq_union_1_L, singleton_subseteq_l, elem_of_dom. eauto.
    + apply IH. intros e' He'. apply Hopen. now right.
Qed.

Lemma notifyWaiters_open (w : World) :
  registered_open w ->
  exists cs, notifyWaiters w = Some (set_chans w cs) /\ dom cs = dom (chans w).
Proof.
  intros Hopen. unfold notifyWaiters.
  destruct (notify_fold_open (map_to_list (waiters (chat w))) (chans w))
    as (cs & Hf & Hd).
  { intros [id h] He. apply elem_of_map_to_list in He. exact (Hopen id h He). }
  exists cs. rewrite Hf. now split.
Qed.

Lemma notifyWaiters_chat (w w' : World) :
  notifyWaiters w = Some w' -> chat w' = chat w /\ counter w' = counter w
                               /\ next_chan w' = next_chan w.
Proof.
  unfold notifyWaiters. intros H.
  destruct (foldl _ _ _) as [cs|]; simpl in H; [|discriminate].
  injection H as <-. now repeat split.
Qed.

(** With non-empty name and text and open registered channels,
    [SendMessage] returns the message it stored. *)
Lemma SendMessage_ok (username content color clientID : string)
    (t_id t_msg t_add : Z) (w : World) :
  username <> "" -> content <> "" -> registered_open w ->
  exists msg w',
    SendMessage username content color clientID t_id t_msg t_add w = Some (Ok msg, w')
    /\ Username msg = username /\ Content msg = content
    /\ ID msg = fst (GenerateID t_id (counter w))
    /\ Color msg = (if negb (String.eqb color "") && negb (IsValidColor color)
                    then "[white]" else color)
    /\ counter w' = snd (GenerateID t_id (counter w))
    /\ waiters (chat w') = waiters (chat w)
    /\ buffer (chat w')
       = Add t_add {| ID := ID msg; Username := username; Content := content;
                      Color := Color msg; Timestamp := t_msg; ExpireAt := zero_time |}
             (buffer (chat w)).
Proof.
  intros Hu Hc Hopen. unfold SendMessage.
  apply String.eqb_neq in Hu. apply String.eqb_neq in Hc. rewrite Hu, Hc. simpl orb.
  cbv zeta.
  match goal with |- context [notifyWaiters ?w0] =>
    destruct (notifyWaiters_open w0) as (cs & Hn & _); [exact Hopen|]; rewrite Hn
  end.
  simpl. eexists _, _. split; [reflexivity|]. simpl. now repeat split.
Qed.

Lemma notify_fold_None (l : list (string * nat)) :
  foldl (fun acc e => acc ≫= try_send (snd e)) None l = None.
Proof. induction l as [|e l IH]; simpl; [reflexivity | exact IH]. Qed.

(** The notification loop closes no channel and opens none. *)
Lemma notify_fold_dom (l : list (string * nat)) :
  forall cs cs' : gmap nat nat,
    foldl (fun acc e => acc ≫= try_send (snd e)) (Some cs) l = Some cs' ->
    dom cs' = dom cs.
Proof.
  induction l as [|e l IH]; intros cs cs' H; simpl in H.
  - now injection H as <-.
  - unfold try_send at 2 in H. destruct (cs !! snd e) as [n|] eqn:E; simpl in H.
    + destruct (n <? 1)%nat.
      * apply IH in H. rewrite H, dom_insert_L.
        apply subseteq_union_1_L, singleton_subseteq_l, elem_of_dom. eauto.
      * now apply IH in H.
    + rewrite notify_fold_None in H. discriminate H.
Qed.

Lemma SendMessage_frame (u c col cid : string) (t1 t2 t3 : Z) (w : World)
    (r : result Message) (w' : World) :
  SendMessage u c col cid t1 t2 t3 w = Some (r, w') ->
  waiters (chat w') = waiters (chat w)
  /\ dom (chans w') = dom (chans w)
  /\ next_chan w' = next_chan w.
Proof.
  unfold SendMessage. destruct (_ || _).
  - intros H. injection H as _ <-. now repeat split.
  - cbv zeta. unfold notifyWaiters.
    destruct (foldl _ _ _) as [cs|] eqn:E; simpl; [|discriminate].
    intros H. injection H as _ <-. simpl.
    apply notify_fold_dom in E. now repeat split.
Qed.

Lemma is_Some_dom_eq (cs cs' : gmap nat nat) (h : nat) :
  dom cs' = dom cs -> is_Some (cs !! h) -> is_Some (cs' !! h).
Proof. intros Hd H. apply elem_of_dom. rewrite Hd. now apply elem_of_dom. Qed.

Lemma elem_of_delete_index (l : list suspended_wait) (k : nat) (p : suspended_wait) :
  p ∈ delete k l -> p ∈ l.
Proof.
  intros H. exact (elem_of_sublist _ _ _ H (sublist_delete l k)).
Qed.

Lemma sys_step_inv (op : sys_op) (σ σ' : System) :
  sys_inv σ -> sys_step op σ = Some σ' -> sys_inv σ'.
Proof.
  intros Hσ H. pose proof Hσ as (Hreg & Hopen & Hnd).
  destruct op as [u c col cid t1 t2 t3 | a | cid a | k ev | now]; simpl in H.
  - destruct (SendMessage _ _ _ _ _ _ _ _) as [[r w']|] eqn:E; simpl in H; [|discriminate].
    injection H as <-. apply SendMessage_frame in E as (Hw & Hd & Hn).
    unfold sys_inv. simpl. rewrite Hw, Hn. split; [exact Hreg|]. split; [|exact Hnd].
    intros p Hp. destruct (Hopen p Hp) as [Ho Hlt]. split; [|exact Hlt].
    eapply is_Some_dom_eq; eauto.
  - destruct (GetMessages a (world σ)); simpl in H; [|discriminate].
    injection H as <-. exact Hσ.
  - unfold WaitForMessages_enter in H.
    destruct (GetAfter _ _ _) as [msgs|]; simpl in H; [|discriminate].
    destruct (len msgs >? 0); simpl in H.
    { injection H as <-. exact Hσ. }
    destruct (_ >=? _); simpl in H; injection H as <-; unfold sys_inv; simpl.
    + split; [exact Hreg|]. split; [|exact Hnd].
      intros p Hp. destruct (Hopen p Hp) as [Ho Hlt]. split; [|lia].
      rewrite lookup_insert. case_decide; [eauto | exact Ho].
    + split; [|split].
      * intros id h. rewrite lookup_insert. case_decide as Hid.
        -- intros Hh. injection Hh as <-. subst id.
           eexists. split; [apply elem_of_app; right; apply list_elem_of_singleton; reflexivity|].
           now split.
        -- intros Hh. destruct (Hreg id h Hh) as (p & Hp & Hpc & Hpw).
           exists p. split; [apply elem_of_app; now left | now split].
      * intros p Hp. apply elem_of_app in Hp as [Hp|Hp].
        -- destruct (Hopen p Hp) as [Ho Hlt]. split; [|lia].
           rewrite lookup_insert. case_decide; [eauto | exact Ho].
        -- apply list_elem_of_singleton in Hp as ->. simpl.
           rewrite lookup_insert_eq. split; [eauto | lia].
      * rewrite fmap_app. apply NoDup_app. split; [exact Hnd|]. split.
        -- intros h Hh Hin. apply list_elem_of_singleton in Hin. simpl in Hin.
           apply list_elem_of_fmap in Hh as (p & -> & Hp).
           destruct (Hopen p Hp) as [_ Hlt]. lia.
        -- apply NoDup_singleton.
  - destruct (suspended σ !! k) as [p|] eqn:Ek; simpl in H; [|discriminate].
    pose proof (take_drop_middle _ _ _ Ek) as Hmid.
    assert (Hfresh : forall q, q ∈ delete k (suspended σ) -> sw_waiter q <> sw_waiter p).
    { intros q Hq Heq. rewrite <- Hmid, fmap_app, fmap_cons in Hnd.
      apply NoDup_app in Hnd as (_ & Hdisj & Hnd2).
      apply NoDup_cons in Hnd2 as (Hnot & _).
      rewrite delete_take_drop in Hq. apply elem_of_app in Hq as [Hq|Hq].
      - apply (Hdisj (sw_waiter q)); [now apply list_elem_of_fmap_2|].
        rewrite Heq. left.
      - apply Hnot. rewrite <- Heq. now apply list_elem_of_fmap_2. }
    assert (Hinv : forall w1 : World,
      waiters (chat w1) = waiters (chat (world σ)) ->
      next_chan w1 = next_chan (world σ) ->
      (forall h, h <> sw_waiter p -> chans w1 !! h = chans (world σ) !! h) ->
      sys_inv {| world := deregister (sw_clientID p) (sw_waiter p) w1;
                 suspended := delete k (suspended σ) |}).
    { intros w1 Hw Hn Hc. unfold sys_inv. simpl. rewrite Hw, Hn. split; [|split].
      - intros id h Hh. apply lookup_delete_Some in Hh as [Hne Hh].
        destruct (Hreg id h Hh) as (q & Hq & Hqc & Hqw). exists q.
        split; [|now split].
        rewrite <- Hmid in Hq. rewrite delete_take_drop.
        apply elem_of_app in Hq as [Hq|Hq]; [apply elem_of_app; now left|].
        apply elem_of_cons in Hq as [->|Hq]; [congruence|].
        apply elem_of_app. now right.
      - intros q Hq. pose proof (Hfresh q Hq) as Hne.
        apply elem_of_delete_index in Hq. destruct (Hopen q Hq) as [Ho Hlt].
        split; [|exact Hlt]. rewrite lookup_delete_ne by congruence.
        now rewrite Hc.
      - rewrite delete_take_drop, fmap_app.
        rewrite <- Hmid, fmap_app, fmap_cons in Hnd.
        apply NoDup_app in Hnd as (Hn1 & Hdisj & Hn2).
        apply NoDup_cons in Hn2 as (_ & Hn2).
        apply NoDup_app. split; [exact Hn1|]. split; [|exact Hn2].
        intros h Hh Hin. apply (Hdisj h Hh). now right. }
    unfold WaitForMessages_resume in H. destruct ev.
    + destruct (chans (world σ) !! sw_waiter p) as [[|n]|] eqn:Ec; try discriminate.
      simpl in H. destruct (GetAfter _ _ _); simpl in H; [|discriminate].
      injection H as <-. simpl. apply Hinv; try reflexivity.
      intros h Hne. simpl. now rewrite lookup_insert_ne.
    + simpl in H. injection H as <-. simpl. now apply Hinv.
  - injection H as <-. exact Hσ.
Qed.

Lemma sys_run_snoc (ops : list sys_op) (op : sys_op) (σ : System) :
  sys_run (ops ++ [op]) σ = sys_run ops σ ≫= sys_step op.
Proof. unfold sys_run. now rewrite foldl_app. Qed.

(** The invariant holds after every run from start-up. *)
Lemma sys_run_inv (ops : list sys_op) (b : MessageBuffer) (σ : System) :
  sys_run ops (NewSystem b) = Some σ -> sys_inv σ.
Proof.
  revert σ. induction ops as [|op ops IH] using rev_ind; intros σ H.
  - injection H as <-. unfold sys_inv. simpl. split; [|split].
    + intros id h Hh. rewrite lookup_empty in Hh. discriminate Hh.
    + intros p Hp. inversion Hp.
    + constructor.
  - rewrite sys_run_snoc in H.
    destruct (sys_run ops (NewSystem b)) as [σ1|]; simpl in H; [|discriminate].
    exact (sys_step_inv op σ1 σ (IH σ1 eq_refl) H).
Qed.

Lemma sys_inv_registered_open (σ : System) : sys_inv σ -> registered_open (world σ).
Proof.
  intros (Hreg & Hopen & _) id h Hh.
  destruct (Hreg id h Hh) as (p & Hp & _ & <-). now apply Hopen.
Qed.

(** After every run from start-up, [SendMessage] with a non-empty name and
    text returns a message: the notification never meets a closed channel. *)
Lemma SendMessage_returns (ops : list sys_op) (b : MessageBuffer) (σ : System)
    (username content color clientID : string) (t_id t_msg t_add : Z) :
  sys_run ops (NewSystem b) = Some σ ->
  username <> "" -> content <> "" ->
  exists msg w',
    SendMessage username content color clientID t_id t_msg t_add (world σ)
    = Some (Ok msg, w').
Proof.
  intros Hrun Hu Hc.
  destruct (SendMessage_ok username content color clientID t_id t_msg t_add (world σ) Hu Hc)
    as (msg & w' & H & _).
  - now apply sys_inv_registered_open, (sys_run_inv ops b).
  - now exists msg, w'.
Qed.

(** C3, as the code has it. With non-empty name and text [SendMessage]
    creates a message whose colour is the supplied one when [validColors]
    holds it (the empty string is one of its keys, so an absent colour is
    stored as the empty string) and is ["[white]"] when [validColors] does
    not hold it. *)
Theorem C3_SendMessage_color (username content color clientID : string)
    (t_id t_msg t_add : Z) (w : World) :
  username <> "" -> content <> "" -> registered_open w ->
  exists msg w',
    SendMessage username content color clientID t_id t_msg t_add w = Some (Ok msg, w')
    /\ (IsValidColor color = true -> Color msg = color)
    /\ (IsValidColor color = false -> Color msg = "[white]").
Proof.
  intros Hu Hc Hopen.
  destruct (SendMessage_ok username content color clientID t_id t_msg t_add w Hu Hc Hopen)
    as (msg & w' & Hs & _ & _ & _ & Hcol & _).
  exists msg, w'. split; [exact Hs|]. rewrite Hcol.
  split; intros Hv; rewrite Hv; simpl.
  - now rewrite andb_false_r.
  - destruct (String.eqb_spec color "") as [->|_]; [discriminate Hv | reflexivity].
Qed.

(** C3 fails for the absent colour: a [SendMessage] call with the empty
    colour creates a message whose colour is the empty string, not the
    neutral tag. *)
Lemma C3_absent_color_counterexample :
  ~ (forall username content color clientID t_id t_msg t_add w msg w',
       username <> "" -> content <> "" ->
       SendMessage username content color clientID t_id t_msg t_add w = Some (Ok msg, w') ->
       color = "" \/ IsValidColor color = false ->
       Color msg = "[white]").
Proof.
  intros H.
  specialize (H "alice" "hi" "" "c1" 5 6 7 (NewWorld (NewMessageBuffer 1000 60))
                (mkMessage "msg_5_1" "alice" "hi" "" 6 67)).
  specialize (H (mkWorld
                   (mkChatService
                      (mkMessageBuffer [mkMessage "msg_5_1" "alice" "hi" "" 6 67] 1000 60)
                      ∅ 1000 1)
                   ∅ O 1)).
  discriminate H; [discriminate | discriminate | reflexivity | now left].
Qed.

(** The send handler replaces an absent colour before it calls
    [SendMessage]: through the handler the stored colour is ["[white]"]. *)
Lemma SendController_default_color (allows : auth.Limiter -> Z -> bool)
    (AccessKey ClientID Username Content : string)
    (t_auth t_rate t_id t_msg t_add : Z) (a : auth.AuthService) (w : World)
    (msg : Message) (a' : auth.AuthService) (w' : World) :
  SendController_Handle allows AccessKey ClientID Username Content ""
    t_auth t_rate t_id t_msg t_add a w = Some (200, Some msg, a', w') ->
  Color msg = "[white]".
Proof.
  unfold SendController_Handle. intros H.
  destruct (negb _); [discriminate|].
  destruct (negb _); [discriminate|].
  simpl String.eqb in H. cbv iota in H.
  unfold SendMessage in H.
  destruct (_ || _); simpl in H; [discriminate|].
  destruct (notifyWaiters _); simpl in H; [|discriminate].
  injection H as <- _ _. reflexivity.
Qed.

(** C5. [SendMessage] returns an error exactly when the name or the text
    is empty; the error is the invalid-input one and the state it returns
    is the state it was called in: buffer, waiter registry, message
    counter, channels (no signal sent) and identifier counter. *)
Theorem C5_SendMessage_invalid_input (username content color clientID : string)
    (t_id t_msg t_add : Z) (w : World) :
  ((exists e w', SendMessage username content color clientID t_id t_msg t_add w
                 = Some (Err e, w'))
   <-> (username = "" \/ content = ""))
  /\ (forall e w', SendMessage username content color clientID t_id t_msg t_add w
                   = Some (Err e, w') ->
                   e = ErrInvalidInput /\ w' = w).
Proof.
  unfold SendMessage.
  destruct (String.eqb username "" || String.eqb content "") eqn:E.
  - apply orb_eqb_empty in E. split.
    + split; [intros _; exact E | intros _; eauto].
    + intros e w' H. injection H as <- <-. now split.
  - assert (Hne : ~ (username = "" \/ content = "")).
    { intros H. apply orb_eqb_empty in H. congruence. }
    cbv zeta. destruct (notifyWaiters _); simpl.
    + split; [split; [intros (e & w' & H); discriminate | tauto]
             | intros e w' H; discriminate].
    + split; [split; [intros (e & w' & H); discriminate | tauto]
             | intros e w' H; discriminate].
Qed.

Lemma size_insert_le (ws : gmap string nat) (clientID : string) (waiter : nat) :
  (size (<[clientID := waiter]> ws) <= S (size ws))%nat.
Proof.
  destruct (ws !! clientID) as [h|] eqn:E.
  - rewrite map_size_insert_Some by eauto. lia.
  - rewrite map_size_insert_None by exact E. lia.
Qed.

Lemma size_delete_le (ws : gmap string nat) (clientID : string) :
  (size (delete clientID ws) <= size ws)%nat.
Proof.
  destruct (ws !! clientID) as [h|] eqn:E.
  - rewrite map_size_delete_Some by eauto. lia.
  - rewrite delete_id by exact E. lia.
Qed.

(** Every operation of the broker keeps the registry bound and the
    configured maximum. *)
Lemma chat_step_bounded (op : chat_op) (w w' : World) :
  chat_step op w = Some w' ->
  registry_bounded w ->
  registry_bounded w' /\ maxWaiters (chat w') = maxWaiters (chat w).
Proof.
  unfold registry_bounded.
  destruct op as [u c col cid t1 t2 t3 | a | cid a | cid a h ev | now]; simpl; intros H Hb.
  - unfold SendMessage in H. destruct (_ || _); simpl in H.
    + injection H as <-. now split.
    + destruct (notifyWaiters _) as [w1|] eqn:En; simpl in H; [|discriminate].
      injection H as <-. apply notifyWaiters_chat in En as (-> & _). simpl. now split.
  - destruct (GetMessages a w); simpl in H; [|discriminate]. injection H as <-. now split.
  - unfold WaitForMessages_enter in H.
    destruct (GetAfter _ _ _) as [msgs|]; simpl in H; [|discriminate].
    destruct (len msgs >? 0); simpl in H; [injection H as <-; now split|].
    destruct (Z.geb_spec (Z.of_nat (size (waiters (chat w)))) (maxWaiters (chat w)))
      as [Hfull|Hroom]; simpl in H; injection H as <-; simpl; [now split|].
    split; [|reflexivity].
    pose proof (size_insert_le (waiters (chat w)) cid (next_chan w)). lia.
  - unfold WaitForMessages_resume in H.
    pose proof (size_delete_le (waiters (chat w)) cid) as Hd.
    destruct ev.
    + destruct (chans w !! h) as [[|n]|]; try discriminate.
      destruct (GetAfter _ _ _); simpl in H; [|discriminate].
      injection H as <-. simpl. split; [lia | reflexivity].
    + injection H as <-. simpl. split; [lia | reflexivity].
  - injection H as <-. simpl. now split.
Qed.

Lemma chat_run_snoc (ops : list chat_op) (op : chat_op) (w : World) :
  chat_run (ops ++ [op]) w = chat_run ops w ≫= chat_step op.
Proof. unfold chat_run. now rewrite foldl_app. Qed.

Lemma chat_run_bounded (ops : list chat_op) :
  forall w w', chat_run ops w = Some w' ->
               registry_bounded w ->
               registry_bounded w' /\ maxWaiters (chat w') = maxWaiters (chat w).
Proof.
  induction ops as [|op ops IH] using rev_ind; intros w w' H Hb.
  - injection H as <-. now split.
  - rewrite chat_run_snoc in H.
    destruct (chat_run ops w) as [w1|] eqn:E; simpl in H; [|discriminate].
    destruct (IH w w1 E Hb) as (Hb1 & Hm1).
    destruct (chat_step_bounded op w1 w' H Hb1) as (Hb' & Hm').
    split; [exact Hb' | congruence].
Qed.

(** C6. [WaitForMessages] whose first read is empty: with the registry
    at or above [maxWaiters] it returns the busy error and the service, so
    the registry, is unchanged; below [maxWaiters] it registers one
    handle, the channel it has just made, under the caller's identifier
    and nothing else changes in the registry, whose size stays within
    [maxWaiters]. Hence in every run of
    the broker from start-up the registry size is at most [maxWaiters]. *)
Theorem C6_WaitForMessages_busy (clientID afterID : string) (w : World) :
  GetAfter (buffer (chat w)) afterID 50 = Some [] ->
  (maxWaiters (chat w) <= Z.of_nat (size (waiters (chat w))) ->
     exists w', WaitForMessages_enter clientID afterID w = Some (Busy ErrBusy, w')
                /\ chat w' = chat w)
  /\ (Z.of_nat (size (waiters (chat w))) < maxWaiters (chat w) ->
        exists waiter w',
          WaitForMessages_enter clientID afterID w = Some (Registered waiter, w')
          /\ waiter = next_chan w
          /\ waiters (chat w') = <[clientID := waiter]> (waiters (chat w))
          /\ Z.of_nat (size (waiters (chat w'))) <= maxWaiters (chat w'))
  /\ (forall ops b w',
        chat_run ops (NewWorld b) = Some w' ->
        Z.of_nat (size (waiters (chat w'))) <= maxWaiters (chat w')).
Proof.
  intros Hread. unfold WaitForMessages_enter. rewrite Hread. simpl.
  split; [|split].
  - intros Hfull. destruct (Z.geb_spec (Z.of_nat (size (waiters (chat w))))
                                       (maxWaiters (chat w))); [|lia].
    eexists. split; reflexivity.
  - intros Hroom. destruct (Z.geb_spec (Z.of_nat (size (waiters (chat w))))
                                       (maxWaiters (chat w))); [lia|].
    eexists _, _. split; [reflexivity|]. simpl. do 2 (split; [reflexivity|]).
    pose proof (size_insert_le (waiters (chat w)) clientID (next_chan w)). lia.
  - intros ops b w' Hrun.
    destruct (chat_run_bounded ops (NewWorld b) w' Hrun) as (Hb & _); [|exact Hb].
    unfold registry_bounded. simpl. rewrite map_size_empty. lia.
Qed.

Lemma registered_open_NewWorld (b : MessageBuffer) : registered_open (NewWorld b).
Proof. intros id h H. simpl in H. rewrite lookup_empty in H. discriminate H. Defined.

(** A concrete send at start-up, with a colour outside the palette. *)
Lemma C3_witness :
  exists msg w',
    SendMessage "alice" "hi" "[pink]" "c1" 5 6 7 (NewWorld (NewMessageBuffer 1000 60))
    = Some (Ok msg, w')
    /\ Color msg = "[white]".
Proof.
  destruct (C3_SendMessage_color "alice" "hi" "[pink]" "c1" 5 6 7
              (NewWorld (NewMessageBuffer 1000 60)))
    as (msg & w' & H1 & _ & H3).
  - discriminate.
  - discriminate.
  - apply registered_open_NewWorld.
  - exists msg, w'. split; [exact H1 | apply H3; reflexivity].
Defined.

(** A concrete wait: the first one after start-up is registered. *)
Lemma C6_witness :
  exists waiter w',
    WaitForMessages_enter "c2" "" (NewWorld (NewMessageBuffer 1000 60))
    = Some (Registered waiter, w')
    /\ waiters (chat w') = <["c2" := waiter]> ∅.
Proof.
  destruct (C6_WaitForMessages_busy "c2" "" (NewWorld (NewMessageBuffer 1000 60)))
    as (_ & H & _); [reflexivity|].
  destruct H as (waiter & w' & H1 & _ & H2 & _).
  - simpl. rewrite map_size_empty. lia.
  - exists waiter, w'. split; [exact H1 | exact H2].
Defined.

End BrokerSpec.

(** * Properties of the access controller *)

Module AccessSpec.
Import services auth.

Lemma wrap_int64_small (n : Z) :
  - 2 ^ 63 <= n <= max_int64 -> wrap_int64 n = n.
Proof.
  unfold wrap_int64, max_int64. intros H.
  rewrite Z.mod_small by lia. lia.
Qed.

(** C8. [ValidateAccess] returns false exactly when the key differs from
    [accessKey] or the caller identifier is empty, and then the state is
    unchanged. Otherwise it returns true; for a known caller the record's
    last-seen time becomes [now] and its count is incremented (as an
    [int64]), the limiters staying as they are; for an unknown caller a
    record with count one is created together with a limiter made from
    the configured rate and burst. *)
Theorem C8_ValidateAccess (key clientID : string) (now : Z) (s : AuthService) :
  let r := ValidateAccess key clientID now s in
  (fst r = false <-> (key <> accessKey s \/ clientID = ""))
  /\ (fst r = false -> snd r = s)
  /\ (fst r = true ->
      match clients s !! clientID with
      | Some client =>
          clients (snd r)
          = <[clientID := {| ID := ID client; FirstSeen := FirstSeen client;
                             LastSeen := now;
                             MessageCount := wrap_int64 (MessageCount client + 1) |}]>
              (clients s)
          /\ (- 2 ^ 63 <= MessageCount client < max_int64 ->
              wrap_int64 (MessageCount client + 1) = MessageCount client + 1)
          /\ rateLimiters (snd r) = rateLimiters s
      | None =>
          clients (snd r)
          = <[clientID := {| ID := clientID; FirstSeen := now; LastSeen := now;
                             MessageCount := 1 |}]> (clients s)
          /\ rateLimiters (snd r)
             = <[clientID := NewLimiter (rateLimit s) (rateBurst s)]> (rateLimiters s)
          /\ limit (NewLimiter (rateLimit s) (rateBurst s)) = rateLimit s
          /\ burst (NewLimiter (rateLimit s) (rateBurst s)) = rateBurst s
      end)
  /\ accessKey (snd r) = accessKey s
  /\ rateLimit (snd r) = rateLimit s
  /\ rateBurst (snd r) = rateBurst s.
Proof.
  unfold ValidateAccess.
  destruct (String.eqb_spec key (accessKey s)) as [Hk|Hk]; simpl.
  2:{ split; [tauto|]. split; [reflexivity|]. split; [discriminate|]. now repeat split. }
  destruct (String.eqb_spec clientID "") as [Hc|Hc]; simpl.
  1:{ split; [tauto|]. split; [reflexivity|]. split; [discriminate|]. now repeat split. }
  assert (Hiff : true = false <-> key <> accessKey s \/ clientID = "").
  { split; [discriminate | intros [Hx|Hx]; contradiction]. }
  destruct (clients s !! clientID) as [client|] eqn:E; simpl.
  - split; [exact Hiff|]. split; [discriminate|]. split; [|now repeat split].
    intros _. split; [reflexivity|]. split; [|reflexivity].
    intros Hrange. apply wrap_int64_small. unfold max_int64 in *. lia.
  - split; [exact Hiff|]. split; [discriminate|]. split; [|now repeat split].
    intros _. now repeat split.
Qed.

Section RateLimiter.

Variable allows : Limiter -> Z -> bool.

(** C9. A caller without limiter state is allowed by [CheckRateLimit],
    call after call, and the controller's state (client map and limiter
    map included) stays as it was. *)
Theorem C9_CheckRateLimit_unknown (clientID : string) (clock : list Z)
    (s : AuthService) :
  rateLimiters s !! clientID = None ->
  (forall now, CheckRateLimit allows clientID now s = (true, s))
  /\ CheckRateLimit_repeat allows clientID clock s
     = (replicate (length clock) true, s).
Proof.
  intros Hnone.
  assert (H1 : forall now, CheckRateLimit allows clientID now s = (true, s)).
  { intros now. unfold CheckRateLimit. now rewrite Hnone. }
  split; [exact H1|].
  induction clock as [|now clock IH]; simpl; [reflexivity|].
  rewrite H1. simpl. now rewrite IH.
Qed.

Lemma sweep_entry_dom (now maxAge : Z) (s : AuthService) (e : string * ClientInfo) :
  dom (clients s) = dom (rateLimiters s) ->
  dom (clients (sweep_entry now maxAge s e))
  = dom (rateLimiters (sweep_entry now maxAge s e)).
Proof.
  intros Hd. unfold sweep_entry. destruct (_ >? _); simpl; [|exact Hd].
  now rewrite !dom_delete_L, Hd.
Qed.

Lemma sweep_fold_dom (now maxAge : Z) (l : list (string * ClientInfo)) :
  forall s, dom (clients s) = dom (rateLimiters s) ->
            dom (clients (foldl (sweep_entry now maxAge) s l))
            = dom (rateLimiters (foldl (sweep_entry now maxAge) s l)).
Proof.
  induction l as [|e l IH]; intros s Hd; simpl; [exact Hd|].
  apply IH, sweep_entry_dom, Hd.
Qed.

(** Every operation of the access controller keeps the two key sets
    equal. *)
Lemma auth_step_dom (s : AuthService) (op : auth_op) :
  dom (clients s) = dom (rateLimiters s) ->
  dom (clients (auth_step allows s op)) = dom (rateLimiters (auth_step allows s op)).
Proof.
  intros Hd. destruct op as [key id now | id now | now maxAge | now maxAge id]; simpl.
  - unfold ValidateAccess.
    destruct (negb _); [exact Hd|]. destruct (String.eqb id ""); [exact Hd|].
    destruct (clients s !! id) as [client|] eqn:E; simpl.
    + rewrite dom_insert_L, <- Hd.
      apply subseteq_union_1_L, singleton_subseteq_l, elem_of_dom. eauto.
    + now rewrite !dom_insert_L, Hd.
  - unfold CheckRateLimit.
    destruct (rateLimiters s !! id) as [limiter|] eqn:E; simpl; [|exact Hd].
    rewrite dom_insert_L, Hd. symmetry.
    apply subseteq_union_1_L, singleton_subseteq_l, elem_of_dom. eauto.
  - now apply sweep_fold_dom.
  - destruct (clients s !! id); [now apply sweep_entry_dom | exact Hd].
Qed.

(** C10. From the maps of [NewAuthService], both empty, every run of
    [ValidateAccess] calls (accepted or refused), [CheckRateLimit] calls
    and sweep ticks or single sweep iterations ends with the same key
    set in the client map and in the limiter map. *)
Theorem C10_same_key_sets (key : string) (ops : list auth_op) :
  dom (clients (auth_run allows ops (NewAuthService key)))
  = dom (rateLimiters (auth_run allows ops (NewAuthService key))).
Proof.
  unfold auth_run.
  induction ops as [|op ops IH] using rev_ind; simpl.
  - now rewrite !dom_empty_L.
  - rewrite foldl_app. simpl. now apply auth_step_dom.
Qed.

End RateLimiter.

(** Three concrete checks at start-up, with a limiter algorithm that
    would refuse every call. *)
Lemma C9_witness :
  rateLimiters (NewAuthService "secure_chat_key_2024") !! "c1" = None
  /\ CheckRateLimit_repeat (fun _ _ => false) "c1" [1; 2; 3]
       (NewAuthService "secure_chat_key_2024")
     = ([true; true; true], NewAuthService "secure_chat_key_2024").
Proof.
  split; [reflexivity|].
  apply (C9_CheckRateLimit_unknown (fun _ _ => false) "c1" [1; 2; 3]
           (NewAuthService "secure_chat_key_2024")).
  reflexivity.
Defined.

End AccessSpec.

(** * Properties of the identifier generator *)

Module IdSpec.
Import utils.

Lemma digit_char_code (d : Z) :
  0 <= d < 10 -> Z.of_N (N_of_ascii (digit_char d)) = 48 + d.
Proof.
  intros H. unfold digit_char. rewrite N_ascii_embedding; lia.
Qed.

Lemma append_cons (c : ascii) (s1 s2 : string) :
  String c s1 +:+ s2 = String c (s1 +:+ s2).
Proof. reflexivity. Qed.

Lemma append_empty (s : string) : "" +:+ s = s.
Proof. reflexivity. Qed.

Lemma length_append (s1 s2 : string) :
  String.length (s1 +:+ s2) = (String.length s1 + String.length s2)%nat.
Proof.
  induction s1 as [|c s1 IH]; [reflexivity|].
  rewrite append_cons. simpl. now rewrite IH.
Qed.

Lemma append_assoc (s1 s2 s3 : string) :
  (s1 +:+ s2) +:+ s3 = s1 +:+ (s2 +:+ s3).
Proof.
  induction s1 as [|c s1 IH]; [reflexivity|].
  rewrite !append_cons. now rewrite IH.
Qed.

Lemma pow10_pos (n : nat) : 0 < 10 ^ Z.of_nat n.
Proof. apply Z.pow_pos_nonneg; lia. Qed.

Lemma pow10_succ (n : nat) : 10 ^ Z.of_nat (S n) = 10 * 10 ^ Z.of_nat n.
Proof. rewrite Nat2Z.inj_succ, Z.pow_succ_r; lia. Qed.

Lemma digits_value_app (s1 s2 : string) :
  digits_value (s1 +:+ s2)
  = digits_value s1 * 10 ^ Z.of_nat (String.length s2) + digits_value s2.
Proof.
  induction s1 as [|c s1 IH]; [rewrite append_empty; simpl; lia|].
  rewrite append_cons. simpl.
  rewrite IH, length_append, Nat2Z.inj_add, Z.pow_add_r by lia. ring.
Qed.

Lemma all_digits_app (s1 s2 : string) :
  all_digits (s1 +:+ s2) = all_digits s1 && all_digits s2.
Proof.
  induction s1 as [|c s1 IH]; [reflexivity|].
  rewrite append_cons. simpl. rewrite IH. now rewrite andb_assoc.
Qed.

Lemma all_digits_bound (s : string) :
  all_digits s = true -> 0 <= digits_value s < 10 ^ Z.of_nat (String.length s).
Proof.
  induction s as [|c s IH]; simpl; [lia|].
  rewrite !andb_true_iff, !Z.leb_le. intros [[H1 H2] H3].
  specialize (IH H3). rewrite pow10_succ. nia.
Qed.

Lemma format_digits_acc (fuel : nat) :
  forall u acc, format_digits fuel u acc = format_digits fuel u "" +:+ acc.
Proof.
  induction fuel as [|fuel IH]; intros u acc; simpl; [reflexivity|].
  destruct (u <? 10); [reflexivity|].
  rewrite IH. rewrite (IH _ (String _ "")). now rewrite append_assoc, append_cons.
Qed.

Lemma format_digits_value (fuel : nat) :
  forall u, 0 <= u < 10 ^ Z.of_nat fuel ->
    all_digits (format_digits fuel u "") = true
    /\ digits_value (format_digits fuel u "") = u.
Proof.
  induction fuel as [|fuel IH]; intros u Hu.
  - simpl in *. split; [reflexivity | lia].
  - rewrite pow10_succ in Hu. simpl.
    destruct (Z.ltb_spec u 10) as [Hlt|Hge].
    + simpl. rewrite digit_char_code by lia. split; [|lia].
      rewrite andb_true_r, andb_true_iff, !Z.leb_le. lia.
    + rewrite format_digits_acc, all_digits_app, digits_value_app.
      destruct (IH (u / 10)) as (Ha & Hv).
      { split; [apply Z.div_pos; lia | apply Z.div_lt_upper_bound; lia]. }
      rewrite Ha, Hv. simpl.
      assert (Hm : 0 <= u mod 10 < 10) by (apply Z.mod_pos_bound; lia).
      rewrite digit_char_code by lia. split.
      * rewrite andb_true_r, andb_true_iff, !Z.leb_le. lia.
      * pose proof (Z.div_mod u 10). lia.
Qed.

Lemma format_digits_length (k : nat) :
  forall fuel u acc,
    (k < fuel)%nat -> 10 ^ Z.of_nat k <= u < 10 ^ Z.of_nat (S k) ->
    String.length (format_digits fuel u acc) = (S k + String.length acc)%nat.
Proof.
  induction k as [|k IH]; intros fuel u acc Hk Hu.
  - destruct fuel as [|fuel]; [lia|].
    change (10 ^ Z.of_nat 0) with 1 in Hu. change (10 ^ Z.of_nat 1) with 10 in Hu.
    simpl format_digits. destruct (Z.ltb_spec u 10); [reflexivity | lia].
  - destruct fuel as [|fuel]; [lia|].
    rewrite !pow10_succ in Hu.
    pose proof (pow10_pos k) as Hp.
    simpl format_digits. destruct (Z.ltb_spec u 10) as [Hlt|Hge]; [lia|].
    rewrite IH; [simpl; lia | lia |].
    rewrite pow10_succ. split.
    + apply Z.div_le_lower_bound; lia.
    + apply Z.div_lt_upper_bound; lia.
Qed.

(** A string without underscore is recovered from what follows it. *)
Lemma split_at_underscore (s1 : string) :
  forall s2 r1 r2,
    has_byte "_" s1 = false -> has_byte "_" s2 = false ->
    s1 +:+ String "_" r1 = s2 +:+ String "_" r2 ->
    s1 = s2 /\ r1 = r2.
Proof.
  induction s1 as [|c s1 IH]; intros [|c2 s2] r1 r2 H1 H2 E;
    rewrite ?append_cons, ?append_empty in E; simpl in H1, H2.
  - injection E as <-. now split.
  - injection E as <- _. discriminate H2.
  - injection E as -> _. discriminate H1.
  - injection E as <- E. apply orb_false_iff in H1 as [_ H1].
    apply orb_false_iff in H2 as [_ H2].
    destruct (IH s2 r1 r2 H1 H2 E) as [-> ->]. now split.
Qed.

Lemma all_digits_no_underscore (s : string) :
  all_digits s = true -> has_byte "_" s = false.
Proof.
  induction s as [|c s IH]; simpl; [reflexivity|].
  rewrite !andb_true_iff, !Z.leb_le. intros [[H1 H2] H3].
  rewrite (IH H3), orb_false_r. apply Ascii.eqb_neq. intros ->.
  vm_compute in H2. congruence.
Qed.

Lemma FormatUint_digits (u : Z) :
  0 <= u < 2 ^ 64 ->
  all_digits (FormatUint u) = true /\ digits_value (FormatUint u) = u.
Proof.
  intros Hu. apply format_digits_value.
  assert (2 ^ 64 < 10 ^ Z.of_nat 20) by (vm_compute; reflexivity). lia.
Qed.

Lemma FormatInt_no_underscore (i : Z) :
  - 2 ^ 63 <= i < 2 ^ 63 -> has_byte "_" (FormatInt i) = false.
Proof.
  intros Hi. unfold FormatInt.
  assert (2 ^ 63 < 2 ^ 64) by (vm_compute; reflexivity).
  destruct (Z.ltb_spec i 0).
  - simpl. apply all_digits_no_underscore, FormatUint_digits. lia.
  - apply all_digits_no_underscore, FormatUint_digits. lia.
Qed.

Lemma compare_append_same (p s1 s2 : string) :
  String.compare (p +:+ s1) (p +:+ s2) = String.compare s1 s2.
Proof.
  induction p as [|c p IH]; [reflexivity|].
  rewrite !append_cons. simpl. unfold Ascii.compare. now rewrite N.compare_refl.
Qed.

(** Digit strings of one length compare as their values do, whatever
    follows them. *)
Lemma compare_digits (s1 : string) :
  forall s2 r1 r2,
    all_digits s1 = true -> all_digits s2 = true ->
    String.length s1 = String.length s2 ->
    digits_value s1 < digits_value s2 ->
    String.compare (s1 +:+ r1) (s2 +:+ r2) = Lt.
Proof.
  induction s1 as [|c1 s1 IH]; intros [|c2 s2] r1 r2 H1 H2 Hlen Hv;
    try discriminate Hlen.
  - simpl in Hv. lia.
  - rewrite !append_cons. simpl in *. injection Hlen as Hlen.
    rewrite !andb_true_iff, !Z.leb_le in H1, H2.
    destruct H1 as [[H1a H1b] H1c]. destruct H2 as [[H2a H2b] H2c].
    pose proof (all_digits_bound s1 H1c) as B1.
    pose proof (all_digits_bound s2 H2c) as B2.
    rewrite Hlen in B1, Hv.
    unfold Ascii.compare.
    destruct (N.compare_spec (N_of_ascii c1) (N_of_ascii c2)) as [E|E|E].
    + apply IH; try assumption. rewrite E in Hv. lia.
    + reflexivity.
    + exfalso. nia.
Qed.

Lemma append_empty_r (s : string) : s +:+ "" = s.
Proof.
  induction s as [|c s IH]; [reflexivity|]. rewrite append_cons. now rewrite IH.
Qed.

(** The counter after [k] calls. *)
Lemma wrap_uint64_succ (counter : Z) (k : Z) :
  wrap_uint64 (wrap_uint64 (counter + 1) + k) = wrap_uint64 (counter + 1 + k).
Proof. unfold wrap_uint64. now rewrite Zplus_mod_idemp_l. Qed.

(** The identifier of the call of index [i] in a run. *)
Lemma GenerateIDs_lookup (clock : list Z) :
  forall (counter : Z) (i : nat) (id : string),
    GenerateIDs clock counter !! i = Some id ->
    exists t, clock !! i = Some t
              /\ id = "msg_" +:+ FormatInt t +:+ "_"
                      +:+ FormatUint (wrap_uint64 (counter + Z.of_nat i + 1)).
Proof.
  induction clock as [|now clock IH]; intros counter i id H; [discriminate|].
  destruct i as [|i]; simpl in H.
  - injection H as <-. exists now. split; [reflexivity|].
    replace (counter + Z.of_nat 0 + 1) with (counter + 1) by lia. reflexivity.
  - apply IH in H as (t & Ht & ->). exists t. split; [exact Ht|].
    simpl snd. rewrite <- Z.add_assoc, wrap_uint64_succ.
    replace (counter + 1 + (Z.of_nat i + 1)) with (counter + Z.of_nat (S i) + 1) by lia.
    reflexivity.
Qed.

Lemma wrap_uint64_range (n : Z) : 0 <= wrap_uint64 n < 2 ^ 64.
Proof. unfold wrap_uint64. apply Z.mod_pos_bound. lia. Qed.

Lemma wrap_uint64_distinct (a b : Z) :
  0 < b - a < 2 ^ 64 -> wrap_uint64 a <> wrap_uint64 b.
Proof.
  unfold wrap_uint64. intros Hab E.
  assert (H : (b - a) mod 2 ^ 64 = 0).
  { rewrite Zminus_mod, E, Z.sub_diag. reflexivity. }
  rewrite Z.mod_small in H by lia. lia.
Qed.

(** Timestamps of the years 2001 to 2262 have nineteen digits. *)
Lemma FormatInt_length_nanos (t : Z) :
  10 ^ 18 <= t < 2 ^ 63 -> String.length (FormatInt t) = 19%nat.
Proof.
  intros Ht. unfold FormatInt. destruct (Z.ltb_spec t 0); [lia|].
  unfold FormatUint. rewrite (format_digits_length 18); [reflexivity | lia |].
  change (10 ^ Z.of_nat 18) with (10 ^ 18).
  assert (2 ^ 63 < 10 ^ Z.of_nat 19) by (vm_compute; reflexivity). lia.
Qed.

(** C4, as the code has it. Of two calls of a run, fewer than [2^64]
    calls apart, the identifiers differ. The later identifier is lexically
    the greater one when the clock has advanced between the two calls
    (from a time not before the epoch) and the two timestamps have the same
    number of digits, or when the timestamps are equal, the counter has
    not wrapped around and the two counter values have the same number of
    digits. *)
Theorem C4_GenerateID_distinct_ordered (clock : list Z) (counter : Z) (i j : nat)
    (t_i t_j : Z) (id_i id_j : string) :
  (i < j)%nat -> Z.of_nat j - Z.of_nat i < 2 ^ 64 ->
  clock !! i = Some t_i -> clock !! j = Some t_j ->
  - 2 ^ 63 <= t_i < 2 ^ 63 -> - 2 ^ 63 <= t_j < 2 ^ 63 ->
  GenerateIDs clock counter !! i = Some id_i ->
  GenerateIDs clock counter !! j = Some id_j ->
  let c_i := wrap_uint64 (counter + Z.of_nat i + 1) in
  let c_j := wrap_uint64 (counter + Z.of_nat j + 1) in
  id_i <> id_j
  /\ (0 <= t_i < t_j ->
      String.length (FormatInt t_i) = String.length (FormatInt t_j) ->
      String.compare id_i id_j = Lt)
  /\ (t_i = t_j -> c_i < c_j ->
      String.length (FormatUint c_i) = String.length (FormatUint c_j) ->
      String.compare id_i id_j = Lt).
Proof.
  intros Hij Hgap Hti Htj Ri Rj Hi Hj c_i c_j.
  apply GenerateIDs_lookup in Hi as (t & Ht & ->).
  apply GenerateIDs_lookup in Hj as (t' & Ht' & ->).
  assert (t = t_i) as -> by congruence. assert (t' = t_j) as -> by congruence.
  fold c_i c_j.
  pose proof (wrap_uint64_range (counter + Z.of_nat i + 1)) as Rci.
  pose proof (wrap_uint64_range (counter + Z.of_nat j + 1)) as Rcj.
  fold c_i in Rci. fold c_j in Rcj.
  destruct (FormatUint_digits c_i Rci) as (Dci & Vci).
  destruct (FormatUint_digits c_j Rcj) as (Dcj & Vcj).
  assert (P63 : 2 ^ 63 < 2 ^ 64) by (vm_compute; reflexivity).
  split; [|split].
  - intros E. apply (inj (String.app "msg_")) in E.
    apply split_at_underscore in E as [_ E];
      try (apply FormatInt_no_underscore; assumption).
    assert (Hc : c_i = c_j) by congruence.
    revert Hc. apply wrap_uint64_distinct. lia.
  - intros Hlt Hlen. rewrite compare_append_same.
    unfold FormatInt in *.
    destruct (Z.ltb_spec t_i 0); [lia|]. destruct (Z.ltb_spec t_j 0); [lia|].
    destruct (FormatUint_digits t_i) as (Di & Vi); [lia|].
    destruct (FormatUint_digits t_j) as (Dj & Vj); [lia|].
    apply compare_digits; try assumption. lia.
  - intros -> Hlt Hlen. rewrite !compare_append_same.
    rewrite <- (append_empty_r (FormatUint c_i)), <- (append_empty_r (FormatUint c_j)).
    apply compare_digits; try assumption. lia.
Qed.

(** C4 fails when two calls read the same clock value and the counter
    gains a digit between them: the tenth identifier of a run is lexically
    smaller than the ninth. *)
Lemma C4_lexical_order_counterexample :
  ~ (forall clock counter (i j : nat) t_i t_j id_i id_j,
       (i < j)%nat ->
       clock !! i = Some t_i -> clock !! j = Some t_j -> t_i <= t_j ->
       GenerateIDs clock counter !! i = Some id_i ->
       GenerateIDs clock counter !! j = Some id_j ->
       String.compare id_i id_j = Lt).
Proof.
  intros H.
  specialize (H [1700000000000000000; 1700000000000000000] 8 0%nat 1%nat
                1700000000000000000 1700000000000000000
                "msg_1700000000000000000_9" "msg_1700000000000000000_10").
  discriminate H; [lia | reflexivity | reflexivity | lia | reflexivity | reflexivity].
Qed.

(** Two concrete calls, one nanosecond apart. *)
Lemma C4_witness :
  GenerateIDs [1700000000000000000; 1700000000000000001] 0
  = ["msg_1700000000000000000_1"; "msg_1700000000000000001_2"]
  /\ "msg_1700000000000000000_1" <> "msg_1700000000000000001_2"
  /\ String.compare "msg_1700000000000000000_1" "msg_1700000000000000001_2" = Lt.
Proof.
  split; [reflexivity|].
  destruct (C4_GenerateID_distinct_ordered
              [1700000000000000000; 1700000000000000001] 0 0%nat 1%nat
              1700000000000000000 1700000000000000001
              "msg_1700000000000000000_1" "msg_1700000000000000001_2")
    as (H1 & H2 & _); try reflexivity; try lia.
  split; [exact H1 | apply H2; [lia | reflexivity]].
Defined.

End IdSpec.

(** * Further properties of the message buffer *)

Module StoreMore.
Import models services notions.
Import StoreSpec.

Lemma GetAfter_tail (mb : MessageBuffer) (afterID : string) (limit : Z) :
  0 <= limit ->
  exists res older,
    GetAfter mb afterID limit = Some res /\ messages mb = older ++ res.
Proof.
  intros Hl. unfold GetAfter. destruct (String.eqb afterID "").
  - rewrite getLastMessages_nonneg by exact Hl.
    eexists _, _. split; [reflexivity|]. now rewrite take_drop.
  - destruct (_ || _).
    + exists [], (messages mb). split; [reflexivity|]. now rewrite app_nil_r.
    + eexists _, _. split; [reflexivity|]. now rewrite take_drop.
Qed.

(** Every read with a limit that is not negative returns, whatever the
    cursor, and what it returns is a tail of the stored sequence: the
    messages come in stored order, without gaps, up to the newest one. *)
Theorem GetAfter_suffix (mb : MessageBuffer) (afterID : string) (limit : Z) :
  0 <= limit ->
  exists res older,
    GetAfter mb afterID limit = Some res /\ messages mb = older ++ res.
Proof.
  exact (GetAfter_tail mb afterID limit).
Qed.

Lemma GetAfter_suffix_witness :
  exists res older,
    GetAfter (mkMessageBuffer [mkMessage "a" "u" "c" "" 0 5; mkMessage "b" "u" "c" "" 0 6]
                10 60) "a" 50 = Some res
    /\ [mkMessage "a" "u" "c" "" 0 5; mkMessage "b" "u" "c" "" 0 6] = older ++ res.
Proof.
  apply (GetAfter_suffix
           (mkMessageBuffer [mkMessage "a" "u" "c" "" 0 5; mkMessage "b" "u" "c" "" 0 6]
              10 60) "a" 50).
  lia.
Defined.

(** After a sweep a read returns no expired message, and the sweep has
    removed no message that is still alive. *)
Theorem cleanup_read_alive (now : Z) (mb : MessageBuffer) (afterID : string) (limit : Z) :
  0 <= limit ->
  (exists res,
      GetAfter (cleanup now mb) afterID limit = Some res
      /\ forall msg, msg ∈ res -> now < ExpireAt msg /\ msg ∈ messages mb)
  /\ (forall msg, msg ∈ messages mb -> now < ExpireAt msg ->
                  msg ∈ messages (cleanup now mb)).
Proof.
  intros Hl. split.
  - destruct (GetAfter_tail (cleanup now mb) afterID limit Hl) as (res & older & Hres & Hsplit).
    exists res. split; [exact Hres|]. intros msg Hin.
    assert (Hc : msg ∈ messages (cleanup now mb)).
    { rewrite Hsplit. apply elem_of_app. now right. }
    unfold cleanup in Hc. simpl in Hc. apply list_elem_of_filter in Hc. exact Hc.
  - intros msg Hin Halive. unfold cleanup. simpl. apply list_elem_of_filter. now split.
Qed.

Lemma cleanup_read_alive_witness :
  exists res,
    GetAfter (cleanup 5 (mkMessageBuffer [mkMessage "a" "u" "c" "" 0 5;
                                          mkMessage "b" "u" "c" "" 0 6] 10 60)) "" 50
    = Some res
    /\ forall msg, msg ∈ res ->
         5 < ExpireAt msg
         /\ msg ∈ [mkMessage "a" "u" "c" "" 0 5; mkMessage "b" "u" "c" "" 0 6].
Proof.
  apply (cleanup_read_alive 5
           (mkMessageBuffer [mkMessage "a" "u" "c" "" 0 5; mkMessage "b" "u" "c" "" 0 6]
              10 60) "" 50).
  lia.
Defined.

Lemma expiry_ordered_tail (x : Message) (l : list Message) :
  expiry_ordered (x :: l) -> expiry_ordered l.
Proof.
  intros H i j m1 m2 Hij H1 H2. apply (H (S i) (S j) m1 m2); [lia | exact H1 | exact H2].
Qed.

Lemma expiry_ordered_head (x : Message) (l : list Message) (m : Message) :
  expiry_ordered (x :: l) -> m ∈ l -> ExpireAt x <= ExpireAt m.
Proof.
  intros H Hin. apply list_elem_of_lookup in Hin as [j Hj].
  apply (H O (S j) x m); [lia | reflexivity | exact Hj].
Qed.

Lemma filter_all (now : Z) (l : list Message) :
  (forall m, m ∈ l -> now < ExpireAt m) ->
  filter (fun msg => now < ExpireAt msg) l = l.
Proof.
  induction l as [|x l IH]; intros H; [reflexivity|].
  rewrite filter_cons_True by (apply H; left).
  f_equal. apply IH. intros m Hm. apply H. now right.
Qed.

(** With expiry times in order, the sweep removes a prefix: what expires
    is older than everything that stays. *)
Lemma cleanup_ordered_prefix (now : Z) (l : list Message) :
  expiry_ordered l ->
  exists k : nat,
    filter (fun msg => now < ExpireAt msg) l = drop k l
    /\ (forall m, m ∈ take k l -> ExpireAt m <= now).
Proof.
  induction l as [|x l IH]; intros Hord.
  - exists O. split; [reflexivity|]. intros m Hm. inversion Hm.
  - destruct (Z.lt_ge_cases now (ExpireAt x)) as [Halive|Hdead].
    + exists O. split; [|intros m Hm; inversion Hm].
      simpl drop. apply filter_all. intros m Hm.
      apply elem_of_cons in Hm as [->|Hm]; [exact Halive|].
      pose proof (expiry_ordered_head x l m Hord Hm). lia.
    + destruct (IH (expiry_ordered_tail x l Hord)) as (k & Hk & Hpre).
      exists (S k). split.
      * rewrite filter_cons_False by lia. exact Hk.
      * intros m Hm. simpl in Hm. apply elem_of_cons in Hm as [->|Hm]; [lia|].
        now apply Hpre.
Qed.

Lemma expiry_ordered_drop (k : nat) (l : list Message) :
  expiry_ordered l -> expiry_ordered (drop k l).
Proof.
  intros H i j m1 m2 Hij H1 H2. rewrite lookup_drop in H1, H2.
  apply (H (k + i)%nat (k + j)%nat m1 m2); [lia | exact H1 | exact H2].
Qed.

Lemma stored_expiry_ordered (t : Z) (calls : list (Z * Message)) :
  clock_ordered calls -> expiry_ordered (stored t <$> calls).
Proof.
  intros H i j m1 m2 Hij H1 H2. rewrite list_lookup_fmap in H1, H2.
  destruct (calls !! i) as [c1|] eqn:E1; [|discriminate].
  destruct (calls !! j) as [c2|] eqn:E2; [|discriminate].
  injection H1 as <-. injection H2 as <-. unfold stored. simpl.
  pose proof (H i j c1 c2 Hij E1 E2). lia.
Qed.

(** A buffer filled from empty under a clock that does not run backwards
    holds its messages in expiry order, so a sweep removes exactly its oldest
    messages: the survivors are a tail of the sequence and everything before
    them has expired. *)
Theorem cleanup_removes_oldest (C t now : Z) (calls : list (Z * Message)) :
  1 <= C -> clock_ordered calls ->
  let mb := AddAll calls (NewMessageBuffer C t) in
  expiry_ordered (messages mb)
  /\ exists k : nat,
       messages (cleanup now mb) = drop k (messages mb)
       /\ (forall m, m ∈ take k (messages mb) -> ExpireAt m <= now)
       /\ (forall m, m ∈ drop k (messages mb) -> now < ExpireAt m).
Proof.
  intros HC Hclock mb.
  destruct (AddAll_window C t calls HC) as (_ & _ & Hmsgs). fold mb in Hmsgs.
  assert (Hord : expiry_ordered (messages mb)).
  { rewrite Hmsgs. apply expiry_ordered_drop, stored_expiry_ordered, Hclock. }
  split; [exact Hord|].
  destruct (cleanup_ordered_prefix now (messages mb) Hord) as (k & Hk & Hpre).
  exists k. split; [exact Hk|]. split; [exact Hpre|].
  intros m Hm. rewrite <- Hk in Hm. now apply list_elem_of_filter in Hm as [H _].
Qed.

Lemma clock_ordered_two (a b : Z) (m1 m2 : Message) :
  a <= b -> clock_ordered [(a, m1); (b, m2)].
Proof.
  intros Hab i j c1 c2 Hij H1 H2.
  destruct i as [|[|i]], j as [|[|j]]; simpl in H1, H2; try discriminate; try lia;
    injection H1 as <-; injection H2 as <-; simpl; lia.
Defined.

Lemma cleanup_removes_oldest_witness :
  exists k : nat,
    messages (cleanup 61 (AddAll [(1, mkMessage "a" "u" "c" "" 0 0);
                                  (2, mkMessage "b" "u" "c" "" 0 0)]
                            (NewMessageBuffer 10 60)))
    = drop k (messages (AddAll [(1, mkMessage "a" "u" "c" "" 0 0);
                                (2, mkMessage "b" "u" "c" "" 0 0)]
                          (NewMessageBuffer 10 60))).
Proof.
  destruct (cleanup_removes_oldest 10 60 61
              [(1, mkMessage "a" "u" "c" "" 0 0); (2, mkMessage "b" "u" "c" "" 0 0)])
    as (_ & k & Hk & _).
  - lia.
  - apply clock_ordered_two. lia.
  - exists k. exact Hk.
Defined.

(** A cursor is answered from its first match on. *)
Lemma GetAfter_first_match (mb : MessageBuffer) (limit : Z) (afterID : string)
    (older : list Message) (m : Message) (newer : list Message) :
  afterID <> "" ->
  messages mb = older ++ m :: newer ->
  ID m = afterID ->
  (forall x, x ∈ older -> ID x <> afterID) ->
  GetAfter mb afterID limit = Some newer.
Proof.
  intros Hne Hsplit Hm Hfirst.
  unfold GetAfter. rewrite (eqb_empty_false _ Hne), Hsplit.
  rewrite (scan_startIdx_first afterID older m newer 0 Hfirst Hm).
  rewrite len_app. unfold len. simpl length.
  destruct (Z.ltb_spec (0 + Z.of_nat (length older) + 1) 0) as [Hneg|_]; [lia|].
  simpl orb.
  destruct (Z.geb_spec (0 + Z.of_nat (length older) + 1)
                       (Z.of_nat (length older) + Z.of_nat (S (length newer))))
    as [Hge|Hlt].
  - destruct newer; [reflexivity | simpl in Hge; lia].
  - f_equal.
    replace (Z.to_nat (0 + Z.of_nat (length older) + 1))
      with (length older + 1)%nat by lia.
    rewrite <- drop_drop, drop_app_length. reflexivity.
Qed.

Lemma NoDup_ids_before (older : list Message) (m : Message) (rest : list Message) :
  NoDup (ID <$> (older ++ m :: rest)) ->
  (forall x, x ∈ older -> ID x <> ID m) /\ (forall x, x ∈ rest -> ID x <> ID m).
Proof.
  rewrite fmap_app, fmap_cons. intros H.
  apply NoDup_app in H as (_ & Hdisj & H2). apply NoDup_cons in H2 as (Hnot & _).
  split.
  - intros x Hx Heq. apply (Hdisj (ID x)); [now apply list_elem_of_fmap_2|].
    rewrite Heq. left.
  - intros x Hx Heq. apply Hnot. rewrite <- Heq. now apply list_elem_of_fmap_2.
Qed.

(** With distinct identifiers a cursor is answered with everything after
    the message that carries it. *)
Lemma GetAfter_unique (mb : MessageBuffer) (limit : Z)
    (older : list Message) (m : Message) (newer : list Message) :
  ID m <> "" ->
  messages mb = older ++ m :: newer ->
  NoDup (ID <$> messages mb) ->
  GetAfter mb (ID m) limit = Some newer.
Proof.
  intros Hne Hsplit Hnd. rewrite Hsplit in Hnd.
  apply (GetAfter_first_match mb limit (ID m) older m newer Hne Hsplit eq_refl).
  apply (proj1 (NoDup_ids_before older m newer Hnd)).
Qed.

(** A sweep does not disturb a reader whose cursor is still alive: with
    distinct identifiers and expiry times in order, the read after the sweep
    answers as the read before it. *)
Theorem cleanup_keeps_cursor (now : Z) (mb : MessageBuffer) (m : Message) (limit : Z) :
  expiry_ordered (messages mb) ->
  NoDup (ID <$> messages mb) ->
  m ∈ messages mb -> ID m <> "" -> now < ExpireAt m ->
  GetAfter (cleanup now mb) (ID m) limit = GetAfter mb (ID m) limit.
Proof.
  intros Hord Hnd Hin Hne Halive.
  apply list_elem_of_split in Hin as (older & newer & Hsplit).
  rewrite (GetAfter_unique mb limit older m newer Hne Hsplit Hnd).
  destruct (cleanup_ordered_prefix now (messages mb) Hord) as (k & Hk & Hpre).
  assert (Hk_le : (k <= length older)%nat).
  { destruct (Nat.le_gt_cases k (length older)) as [H|H]; [exact H|]. exfalso.
    assert (Hm : m ∈ take k (messages mb)).
    { apply list_elem_of_lookup. exists (length older).
      rewrite lookup_take_lt by lia. rewrite Hsplit.
      now rewrite list_lookup_middle. }
    specialize (Hpre m Hm). lia. }
  assert (Hsplit' : messages (cleanup now mb) = drop k older ++ m :: newer).
  { unfold cleanup. simpl. rewrite Hk, Hsplit. now rewrite drop_app_le. }
  apply (GetAfter_first_match (cleanup now mb) limit (ID m) (drop k older) m newer
           Hne Hsplit' eq_refl).
  intros x Hx. rewrite Hsplit in Hnd.
  apply (proj1 (NoDup_ids_before older m newer Hnd)).
  apply (elem_of_sublist _ _ _ Hx (sublist_drop _ _)).
Qed.

Lemma expiry_ordered_two (m1 m2 : Message) :
  ExpireAt m1 <= ExpireAt m2 -> expiry_ordered [m1; m2].
Proof.
  intros Hab i j x y Hij H1 H2.
  destruct i as [|[|i]], j as [|[|j]]; simpl in H1, H2; try discriminate; try lia;
    injection H1 as <-; injection H2 as <-; lia.
Defined.

Lemma cleanup_keeps_cursor_witness :
  GetAfter (cleanup 5 (mkMessageBuffer [mkMessage "a" "u" "c" "" 0 5;
                                        mkMessage "b" "u" "c" "" 0 6] 10 60)) "b" 50
  = GetAfter (mkMessageBuffer [mkMessage "a" "u" "c" "" 0 5;
                               mkMessage "b" "u" "c" "" 0 6] 10 60) "b" 50.
Proof.
  apply (cleanup_keeps_cursor 5
           (mkMessageBuffer [mkMessage "a" "u" "c" "" 0 5; mkMessage "b" "u" "c" "" 0 6]
              10 60) (mkMessage "b" "u" "c" "" 0 6) 50).
  - apply expiry_ordered_two. simpl. lia.
  - refine (bool_decide_unpack _ _). vm_compute. exact I.
  - simpl. right. left.
  - discriminate.
  - simpl. lia.
Defined.

(** Eviction silently invalidates the oldest cursor. On a full buffer with
    distinct identifiers, a reader at the oldest message would get every other
    message; once one more message is appended the same cursor is answered
    with nothing. *)
Theorem Add_evicts_oldest_cursor (now : Z) (msg : Message) (mb : MessageBuffer)
    (m0 : Message) (rest : list Message) (limit : Z) :
  messages mb = m0 :: rest ->
  len (messages mb) = maxSize mb ->
  ID m0 <> "" ->
  NoDup (ID <$> (messages mb ++ [msg])) ->
  GetAfter mb (ID m0) limit = Some rest
  /\ GetAfter (Add now msg mb) (ID m0) limit = Some [].
Proof.
  intros Hsplit Hfull Hne Hnd.
  assert (HC : 1 <= maxSize mb).
  { rewrite <- Hfull, Hsplit. unfold len. simpl length. lia. }
  rewrite Hsplit in Hnd. change ((m0 :: rest) ++ [msg]) with ([] ++ m0 :: (rest ++ [msg])) in Hnd.
  destruct (NoDup_ids_before [] m0 (rest ++ [msg]) Hnd) as (_ & Hrest).
  split.
  - apply (GetAfter_first_match mb limit (ID m0) [] m0 rest Hne Hsplit eq_refl).
    intros x Hx. inversion Hx.
  - unfold GetAfter. rewrite (eqb_empty_false _ Hne).
    rewrite scan_startIdx_absent; [reflexivity|].
    intros x Hx. rewrite Add_messages in Hx by exact HC.
    destruct (Z.ltb_spec (len (messages mb)) (maxSize mb)) as [Hlt|_]; [lia|].
    rewrite Hsplit in Hx. simpl drop in Hx.
    apply elem_of_app in Hx as [Hx|Hx].
    + apply Hrest. apply elem_of_app. now left.
    + apply list_elem_of_singleton in Hx as ->. simpl.
      apply (Hrest msg). apply elem_of_app. right. left.
Qed.

Lemma Add_evicts_oldest_cursor_witness :
  GetAfter (mkMessageBuffer [mkMessage "a" "u" "c" "" 0 5; mkMessage "b" "u" "c" "" 0 6]
              2 60) "a" 50
  = Some [mkMessage "b" "u" "c" "" 0 6]
  /\ GetAfter (Add 7 (mkMessage "c" "u" "c" "" 0 0)
                 (mkMessageBuffer [mkMessage "a" "u" "c" "" 0 5;
                                   mkMessage "b" "u" "c" "" 0 6] 2 60)) "a" 50
     = Some [].
Proof.
  apply (Add_evicts_oldest_cursor 7 (mkMessage "c" "u" "c" "" 0 0)
           (mkMessageBuffer [mkMessage "a" "u" "c" "" 0 5; mkMessage "b" "u" "c" "" 0 6]
              2 60) (mkMessage "a" "u" "c" "" 0 5) [mkMessage "b" "u" "c" "" 0 6] 50).
  - reflexivity.
  - reflexivity.
  - discriminate.
  - refine (bool_decide_unpack _ _). vm_compute. exact I.
Defined.

(** A run of [Add] calls on any buffer within its capacity. *)
Lemma AddAll_from (calls : list (Z * Message)) (mb : MessageBuffer) :
  1 <= maxSize mb -> len (messages mb) <= maxSize mb ->
  maxSize (AddAll calls mb) = maxSize mb
  /\ ttl (AddAll calls mb) = ttl mb
  /\ messages (AddAll calls mb)
     = drop (length (messages mb) + length calls - Z.to_nat (maxSize mb))
            (messages mb ++ (stored (ttl mb) <$> calls)).
Proof.
  intros HC Hlen. unfold len in Hlen.
  induction calls as [|c calls IH] using rev_ind.
  - simpl. repeat split. rewrite app_nil_r.
    replace (length (messages mb) + 0 - Z.to_nat (maxSize mb))%nat with O by lia.
    reflexivity.
  - destruct IH as (IHmax & IHttl & IHmsgs).
    rewrite AddAll_snoc, Add_maxSize, Add_ttl.
    repeat split; try assumption.
    rewrite Add_messages by lia. rewrite IHmax, IHttl, IHmsgs.
    rewrite fmap_app, length_app. simpl.
    unfold len. rewrite length_drop, length_app, length_fmap.
    fold (stored (ttl mb) c). rewrite app_assoc.
    set (l := messages mb ++ (stored (ttl mb) <$> calls)).
    assert (Hl : length l = (length (messages mb) + length calls)%nat).
    { unfold l. now rewrite length_app, length_fmap. }
    set (n := (length (messages mb) + length calls)%nat) in *.
    destruct (Z.ltb_spec (Z.of_nat (n - (n - Z.to_nat (maxSize mb)))) (maxSize mb))
      as [Hlt|Hge].
    + replace (n - Z.to_nat (maxSize mb))%nat with O by lia.
      replace (length (messages mb) + (length calls + 1) - Z.to_nat (maxSize mb))%nat
        with O by lia.
      reflexivity.
    + rewrite drop_drop.
      replace (length (messages mb) + (length calls + 1) - Z.to_nat (maxSize mb))%nat
        with (n - Z.to_nat (maxSize mb) + 1)%nat by lia.
      rewrite drop_app_le; [reflexivity | lia].
Qed.

(** Polling with the cursor of the newest message loses nothing and
    repeats nothing: after fewer than [maxSize] further appends (so that the
    cursor itself is not evicted), with distinct identifiers, the read returns
    exactly the appended messages, in order. *)
Theorem cursor_read_after_appends (calls : list (Z * Message)) (mb : MessageBuffer)
    (older : list Message) (m : Message) (limit : Z) :
  len (messages mb) <= maxSize mb ->
  messages mb = older ++ [m] ->
  ID m <> "" ->
  NoDup (ID <$> (messages mb ++ (snd <$> calls))) ->
  Z.of_nat (length calls) < maxSize mb ->
  GetAfter (AddAll calls mb) (ID m) limit = Some (stored (ttl mb) <$> calls).
Proof.
  intros Hlen Hsplit Hne Hnd Hn.
  destruct (AddAll_from calls mb) as (_ & _ & Hmsgs); [lia | exact Hlen |].
  unfold len in Hlen. rewrite Hsplit in Hlen, Hmsgs, Hnd.
  rewrite length_app in Hlen, Hmsgs. simpl length in Hlen, Hmsgs.
  rewrite <- app_assoc in Hmsgs, Hnd. simpl app in Hmsgs, Hnd.
  set (d := (length older + 1 + length calls - Z.to_nat (maxSize mb))%nat) in *.
  rewrite drop_app_le in Hmsgs by lia.
  apply (GetAfter_first_match (AddAll calls mb) limit (ID m) (drop d older) m
           (stored (ttl mb) <$> calls) Hne Hmsgs eq_refl).
  intros x Hx.
  apply (proj1 (NoDup_ids_before older m (snd <$> calls) Hnd)).
  apply (elem_of_sublist _ _ _ Hx (sublist_drop _ _)).
Qed.

Lemma cursor_read_after_appends_witness :
  GetAfter (AddAll [(7, mkMessage "c" "u" "c" "" 0 0); (8, mkMessage "d" "u" "c" "" 0 0)]
              (mkMessageBuffer [mkMessage "a" "u" "c" "" 0 5;
                                mkMessage "b" "u" "c" "" 0 6] 3 60)) "b" 50
  = Some [mkMessage "c" "u" "c" "" 0 67; mkMessage "d" "u" "c" "" 0 68].
Proof.
  apply (cursor_read_after_appends
           [(7, mkMessage "c" "u" "c" "" 0 0); (8, mkMessage "d" "u" "c" "" 0 0)]
           (mkMessageBuffer [mkMessage "a" "u" "c" "" 0 5; mkMessage "b" "u" "c" "" 0 6]
              3 60) [mkMessage "a" "u" "c" "" 0 5] (mkMessage "b" "u" "c" "" 0 6) 50).
  - unfold len. simpl. lia.
  - reflexivity.
  - discriminate.
  - refine (bool_decide_unpack _ _). vm_compute. exact I.
  - simpl. lia.
Defined.

End StoreMore.

(** * Further properties of the chat service *)

Module BrokerMore.
Import models utils services stats notions.
Import StoreSpec BrokerSpec IdSpec.

(** What [SendMessage] does when the name and the text are not empty. *)
Lemma SendMessage_accepts (username content color clientID : string)
    (t_id t_msg t_add : Z) (w : World) :
  username <> "" -> content <> "" -> registered_open w ->
  exists cs,
    dom cs = dom (chans w)
    /\ SendMessage username content color clientID t_id t_msg t_add w
       = Some (Ok (mkMessage (fst (GenerateID t_id (counter w))) username content
                     (if negb (String.eqb color "") && negb (IsValidColor color)
                      then "[white]" else color)
                     t_msg (t_add + ttl (buffer (chat w)))),
               mkWorld
                 (mkChatService
                    (Add t_add
                       (mkMessage (fst (GenerateID t_id (counter w))) username content
                          (if negb (String.eqb color "") && negb (IsValidColor color)
                           then "[white]" else color)
                          t_msg zero_time)
                       (buffer (chat w)))
                    (waiters (chat w)) (maxWaiters (chat w))
                    (wrap_int64 (msgCounter (chat w) + 1)))
                 cs (next_chan w) (snd (GenerateID t_id (counter w)))).
Proof.
  intros Hu Hc Hopen. unfold SendMessage.
  apply String.eqb_neq in Hu. apply String.eqb_neq in Hc. rewrite Hu, Hc. simpl orb.
  cbv zeta.
  match goal with |- context [notifyWaiters ?w0] =>
    destruct (notifyWaiters_open w0) as (cs & Hn & Hd); [exact Hopen|]; rewrite Hn
  end.
  exists cs. split; [exact Hd|]. reflexivity.
Qed.

Lemma last_drop_lt (l : list Message) (k : nat) :
  (k < length l)%nat -> last (drop k l) = last l.
Proof.
  intros Hk. destruct (last l) as [x|] eqn:E.
  - apply last_Some in E as [l' ->]. rewrite length_app in Hk. simpl in Hk.
    rewrite drop_app_le by lia. apply last_snoc.
  - apply last_None in E. subst l. simpl in Hk. lia.
Qed.

(** A sender can read its message back: on a buffer of capacity at least
    one, the message [SendMessage] returns is the newest stored message and
    the last one of an immediate read without cursor. *)
Theorem SendMessage_read_back (username content color clientID : string)
    (t_id t_msg t_add : Z) (w : World) :
  username <> "" -> content <> "" -> registered_open w ->
  1 <= maxSize (buffer (chat w)) ->
  exists msg w' res,
    SendMessage username content color clientID t_id t_msg t_add w = Some (Ok msg, w')
    /\ Username msg = username /\ Content msg = content
    /\ last (messages (buffer (chat w'))) = Some msg
    /\ GetMessages "" w' = Some (Ok res)
    /\ last res = Some msg.
Proof.
  intros Hu Hc Hopen HC.
  destruct (SendMessage_accepts username content color clientID t_id t_msg t_add w Hu Hc Hopen)
    as (cs & _ & Hs).
  eexists _, _, _. split; [exact Hs|]. simpl.
  split; [reflexivity|]. split; [reflexivity|].
  rewrite Add_messages by exact HC. unfold set_ExpireAt. simpl.
  split; [apply last_snoc|].
  unfold GetMessages, GetAfter. simpl String.eqb. cbv iota.
  rewrite getLastMessages_nonneg by lia. simpl.
  split; [reflexivity|].
  rewrite Add_messages by exact HC. unfold set_ExpireAt. simpl.
  rewrite last_drop_lt; [apply last_snoc|].
  rewrite length_app. simpl. lia.
Qed.

Lemma SendMessage_read_back_witness :
  exists msg w' res,
    SendMessage "alice" "hi" "" "c1" 5 6 7 (NewWorld (NewMessageBuffer 1000 60))
    = Some (Ok msg, w')
    /\ Username msg = "alice" /\ Content msg = "hi"
    /\ last (messages (buffer (chat w'))) = Some msg
    /\ GetMessages "" w' = Some (Ok res)
    /\ last res = Some msg.
Proof.
  apply (SendMessage_read_back "alice" "hi" "" "c1" 5 6 7
           (NewWorld (NewMessageBuffer 1000 60))).
  - discriminate.
  - discriminate.
  - intros id h H. simpl in H. rewrite lookup_empty in H. discriminate H.
  - simpl. lia.
Defined.

(** One non-blocking send leaves a signal on its channel, takes none away
    elsewhere, and never buffers more than one. *)
Lemma try_send_effect (h : nat) (cs cs1 : gmap nat nat) :
  try_send h cs = Some cs1 ->
  (exists n, cs1 !! h = Some (S n))
  /\ (forall h' n, cs !! h' = Some (S n) -> exists n', cs1 !! h' = Some (S n'))
  /\ (forall h', h' <> h -> cs1 !! h' = cs !! h')
  /\ ((forall h' n, cs !! h' = Some n -> (n <= 1)%nat) ->
      forall h' n, cs1 !! h' = Some n -> (n <= 1)%nat).
Proof.
  unfold try_send. destruct (cs !! h) as [n|] eqn:E; [|discriminate].
  destruct (Nat.ltb_spec n 1) as [Hlt|Hge]; intros H; injection H as <-.
  - split; [exists n; apply lookup_insert_eq|]. split; [|split].
    + intros h' n' Hh'. rewrite lookup_insert. case_decide; eauto.
    + intros h' Hne. now rewrite lookup_insert_ne.
    + intros Hcap h' n'. rewrite lookup_insert. case_decide.
      * intros Hn. injection Hn as <-. lia.
      * apply Hcap.
  - split; [destruct n as [|n]; [lia | eauto]|]. split; [eauto|]. split; [reflexivity|].
    intros Hcap. exact Hcap.
Qed.

Lemma notify_fold_signals (l : list (string * nat)) :
  forall cs cs' : gmap nat nat,
    foldl (fun acc e => acc ≫= try_send (snd e)) (Some cs) l = Some cs' ->
    (forall e, e ∈ l -> exists n, cs' !! snd e = Some (S n))
    /\ (forall h n, cs !! h = Some (S n) -> exists n', cs' !! h = Some (S n'))
    /\ (forall h, (forall e, e ∈ l -> snd e <> h) -> cs' !! h = cs !! h)
    /\ ((forall h n, cs !! h = Some n -> (n <= 1)%nat) ->
        forall h n, cs' !! h = Some n -> (n <= 1)%nat).
Proof.
  induction l as [|e l IH]; intros cs cs' H; simpl in H.
  - injection H as <-. split; [intros e He; inversion He|]. split; [eauto|].
    split; [reflexivity|]. intros Hcap. exact Hcap.
  - destruct (try_send (snd e) cs) as [cs1|] eqn:E; simpl in H.
    2:{ rewrite notify_fold_None in H. discriminate H. }
    destruct (try_send_effect _ _ _ E) as (Hset & Hkeep & Hother & Hcap1).
    destruct (IH cs1 cs' H) as (Hall & Hmono & Hframe & Hcap2).
    split; [|split; [|split]].
    + intros e' He'. apply elem_of_cons in He' as [->|He'].
      * destruct Hset as [n Hn]. exact (Hmono _ _ Hn).
      * now apply Hall.
    + intros h n Hh. destruct (Hkeep h n Hh) as [n' Hn']. exact (Hmono _ _ Hn').
    + intros h Hnot. rewrite Hframe.
      * apply Hother. apply not_eq_sym, Hnot. left.
      * intros e' He'. apply Hnot. now right.
    + intros Hcap. apply Hcap2, Hcap1, Hcap.
Qed.

(** What a successful [SendMessage] does to the channels. *)
Lemma SendMessage_channels (u c col cid : string) (t1 t2 t3 : Z) (w w' : World)
    (msg : Message) :
  SendMessage u c col cid t1 t2 t3 w = Some (Ok msg, w') ->
  (forall id h, waiters (chat w) !! id = Some h -> exists n, chans w' !! h = Some (S n))
  /\ (forall h, (forall id, waiters (chat w) !! id <> Some h) -> chans w' !! h = chans w !! h)
  /\ ((forall h n, chans w !! h = Some n -> (n <= 1)%nat) ->
      forall h n, chans w' !! h = Some n -> (n <= 1)%nat).
Proof.
  unfold SendMessage. destruct (_ || _); [discriminate|].
  cbv zeta. unfold notifyWaiters.
  destruct (foldl _ _ _) as [cs|] eqn:E; simpl; [|discriminate].
  intros H. injection H as _ <-. simpl in *.
  destruct (notify_fold_signals _ _ _ E) as (Hall & _ & Hframe & Hcap).
  split; [|split].
  - intros id h Hh. apply (Hall (id, h)). now apply elem_of_map_to_list.
  - intros h Hnot. apply Hframe. intros [id h'] He Heq. simpl in Heq. subst h'.
    apply elem_of_map_to_list in He. exact (Hnot id He).
  - exact Hcap.
Qed.

(** A send wakes every registered waiter: after a successful
    [SendMessage] the channel of each registration holds a signal, so the
    receive case of its [select] can fire; a channel that already held one is
    skipped and none ever holds two. *)
Theorem SendMessage_signals_waiters (u c col cid : string) (t1 t2 t3 : Z)
    (w w' : World) (msg : Message) :
  SendMessage u c col cid t1 t2 t3 w = Some (Ok msg, w') ->
  (forall h n, chans w !! h = Some n -> (n <= 1)%nat) ->
  waiters (chat w') = waiters (chat w)
  /\ (forall id h, waiters (chat w) !! id = Some h -> chans w' !! h = Some 1%nat).
Proof.
  intros Hs Hcap.
  destruct (SendMessage_channels _ _ _ _ _ _ _ _ _ _ Hs) as (Hall & _ & Hcap').
  destruct (SendMessage_frame _ _ _ _ _ _ _ _ _ _ Hs) as (Hw & _).
  split; [exact Hw|]. intros id h Hh.
  destruct (Hall id h Hh) as [n Hn]. pose proof (Hcap' Hcap h _ Hn). rewrite Hn.
  f_equal. lia.
Qed.

Lemma SendMessage_signals_waiters_witness :
  exists msg w',
    SendMessage "alice" "hi" "" "c1" 5 6 7
      (mkWorld (mkChatService (NewMessageBuffer 1000 60) (<["c2" := 0%nat]> ∅) 1000 0)
               (<[0%nat := 0%nat]> ∅) 1 0)
    = Some (Ok msg, w')
    /\ chans w' !! 0%nat = Some 1%nat.
Proof.
  destruct (SendMessage "alice" "hi" "" "c1" 5 6 7
      (mkWorld (mkChatService (NewMessageBuffer 1000 60) (<["c2" := 0%nat]> ∅) 1000 0)
               (<[0%nat := 0%nat]> ∅) 1 0)) as [[[msg|e] w']|] eqn:E.
  - exists msg, w'. split; [reflexivity|].
    refine (proj2 (SendMessage_signals_waiters _ _ _ _ _ _ _ _ _ _ E _) "c2" 0%nat _).
    + intros h n. simpl. rewrite lookup_insert. case_decide.
      * intros Hn. injection Hn as <-. lia.
      * rewrite lookup_empty. discriminate.
    + reflexivity.
  - vm_compute in E. discriminate E.
  - vm_compute in E. discriminate E.
Defined.

(** The result and the state after a successful [SendMessage]. *)
Lemma SendMessage_buffer (u c col cid : string) (t1 t2 t3 : Z) (w w' : World)
    (msg : Message) :
  SendMessage u c col cid t1 t2 t3 w = Some (Ok msg, w') ->
  exists msg0,
    msg = set_ExpireAt msg0 (t3 + ttl (buffer (chat w)))
    /\ ID msg0 = fst (GenerateID t1 (counter w))
    /\ buffer (chat w') = Add t3 msg0 (buffer (chat w))
    /\ counter w' = snd (GenerateID t1 (counter w)).
Proof.
  unfold SendMessage. destruct (_ || _); [discriminate|].
  cbv zeta. unfold notifyWaiters.
  destruct (foldl _ _ _) as [cs|]; simpl; [|discriminate].
  intros H. injection H as <- <-. eexists. split; [reflexivity|]. now repeat split.
Qed.

(** What a wait that gets registered has found and done. *)
Lemma WaitForMessages_enter_registered (cid a : string) (w w1 : World) (h : nat) :
  WaitForMessages_enter cid a w = Some (Registered h, w1) ->
  GetAfter (buffer (chat w)) a 50 = Some []
  /\ h = next_chan w
  /\ w1 = mkWorld (set_waiters (chat w) (<[cid := h]> (waiters (chat w))))
                  (<[h := O]> (chans w)) (S h) (counter w).
Proof.
  unfold WaitForMessages_enter.
  destruct (GetAfter _ _ _) as [msgs|]; simpl; [|discriminate].
  destruct (Z.gtb_spec (len msgs) 0) as [Hpos|Hzero]; [discriminate|].
  destruct (_ >=? _); [discriminate|].
  intros H. injection H as <- <-. split; [|now split].
  destruct msgs; [reflexivity | unfold len in Hzero; simpl in Hzero; lia].
Qed.

Lemma getLast_empty (mb : MessageBuffer) :
  GetAfter mb "" 50 = Some [] -> messages mb = [].
Proof.
  unfold GetAfter. simpl String.eqb. cbv iota.
  rewrite getLastMessages_nonneg by lia. intros H. injection H as H.
  destruct (messages mb) as [|x l] eqn:E; [reflexivity|].
  apply (f_equal length) in H. rewrite length_drop in H. simpl in H. lia.
Qed.

(** Long-poll delivery. A call that was registered is signalled by the
    next successful [SendMessage]: its receive case can fire, it re-reads with
    its cursor and it leaves the registry. When the call waited on the empty
    buffer without cursor, or with the cursor of the newest message of a
    buffer of capacity at least two with distinct identifiers, what it returns
    is exactly the message sent. *)
Theorem long_poll_delivers (cid a u c col cid' : string) (t1 t2 t3 : Z)
    (w w1 w2 : World) (h : nat) (msg : Message) :
  WaitForMessages_enter cid a w = Some (Registered h, w1) ->
  SendMessage u c col cid' t1 t2 t3 w1 = Some (Ok msg, w2) ->
  exists msgs w3,
    WaitForMessages_resume cid a h Signaled w2 = Some (Ok msgs, w3)
    /\ GetAfter (buffer (chat w2)) a 50 = Some msgs
    /\ waiters (chat w3) !! cid = None
    /\ (a = "" -> 1 <= maxSize (buffer (chat w)) -> msgs = [msg])
    /\ (forall older m,
          messages (buffer (chat w)) = older ++ [m] -> ID m = a -> a <> "" ->
          NoDup (ID <$> (messages (buffer (chat w)) ++ [msg])) ->
          len (messages (buffer (chat w))) <= maxSize (buffer (chat w)) ->
          2 <= maxSize (buffer (chat w)) ->
          msgs = [msg]).
Proof.
  intros Henter Hsend.
  destruct (WaitForMessages_enter_registered _ _ _ _ _ Henter) as (Hread & Hh & Hw1).
  destruct (SendMessage_channels _ _ _ _ _ _ _ _ _ _ Hsend) as (Hall & _ & _).
  destruct (Hall cid h) as [n Hn].
  { rewrite Hw1. simpl. apply lookup_insert_eq. }
  destruct (SendMessage_buffer _ _ _ _ _ _ _ _ _ _ Hsend) as (msg0 & Hmsg & _ & Hbuf & _).
  assert (Hb1 : buffer (chat w1) = buffer (chat w)) by (rewrite Hw1; reflexivity).
  rewrite Hb1 in Hbuf, Hmsg.
  destruct (GetAfter_total (buffer (chat w2)) a 50) as [msgs Hmsgs]; [lia|].
  unfold WaitForMessages_resume. rewrite Hn. simpl. rewrite Hmsgs. simpl.
  eexists _, _. split; [reflexivity|]. split; [reflexivity|].
  split; [simpl; apply lookup_delete_eq|].
  split.
  - intros -> HC. apply getLast_empty in Hread.
    rewrite Hbuf in Hmsgs. unfold GetAfter in Hmsgs. simpl String.eqb in Hmsgs.
    cbv iota in Hmsgs. rewrite getLastMessages_nonneg in Hmsgs by lia.
    rewrite Add_messages in Hmsgs by exact HC. rewrite Hread in Hmsgs.
    unfold len in Hmsgs. simpl length in Hmsgs.
    destruct (Z.of_nat 0 <? maxSize (buffer (chat w)));
      simpl in Hmsgs; injection Hmsgs as <-; now rewrite Hmsg.
  - intros older m Hsplit Hm Hne Hnd Hlen HC.
    rewrite Hbuf in Hmsgs.
    assert (Hsplit' : exists older',
               messages (Add t3 msg0 (buffer (chat w))) = older' ++ m :: [msg]
               /\ older' `sublist_of` older).
    { rewrite Add_messages by lia. rewrite <- Hmsg, Hsplit.
      destruct (Z.ltb_spec (len (older ++ [m])) (maxSize (buffer (chat w)))).
      - exists older. split; [now rewrite <- app_assoc | reflexivity].
      - exists (drop 1 older). split; [|apply sublist_drop].
        rewrite Hsplit in Hlen. unfold len in *. rewrite length_app in *. simpl in *.
        rewrite drop_app_le by lia. now rewrite <- app_assoc. }
    destruct Hsplit' as (older' & Hsplit' & Hsub).
    rewrite Hsplit, <- app_assoc in Hnd. simpl app in Hnd.
    pose proof (StoreMore.GetAfter_first_match (Add t3 msg0 (buffer (chat w))) 50 a
                  older' m [msg] Hne Hsplit' Hm) as Hfm.
    rewrite Hfm in Hmsgs; [now injection Hmsgs as <-|].
    intros x Hx. rewrite <- Hm.
    apply (proj1 (StoreMore.NoDup_ids_before older m [msg] Hnd)).
    exact (elem_of_sublist _ _ _ Hx Hsub).
Qed.

Lemma long_poll_delivers_witness :
  exists msgs w3,
    WaitForMessages_resume "c2" "" 0 Signaled
      (mkWorld (mkChatService
                  (mkMessageBuffer [mkMessage "msg_5_1" "alice" "hi" "" 6 67] 1000 60)
                  (<["c2" := 0%nat]> ∅) 1000 1)
               (<[0%nat := 1%nat]> ∅) 1 1)
    = Some (Ok msgs, w3)
    /\ msgs = [mkMessage "msg_5_1" "alice" "hi" "" 6 67].
Proof.
  destruct (long_poll_delivers "c2" "" "alice" "hi" "" "c1" 5 6 7
              (NewWorld (NewMessageBuffer 1000 60))
              (mkWorld (mkChatService (NewMessageBuffer 1000 60) (<["c2" := 0%nat]> ∅)
                          1000 0)
                       (<[0%nat := 0%nat]> ∅) 1 0)
              (mkWorld (mkChatService
                          (mkMessageBuffer [mkMessage "msg_5_1" "alice" "hi" "" 6 67]
                             1000 60)
                          (<["c2" := 0%nat]> ∅) 1000 1)
                       (<[0%nat := 1%nat]> ∅) 1 1)
              0%nat (mkMessage "msg_5_1" "alice" "hi" "" 6 67))
    as (msgs & w3 & H1 & _ & _ & H4 & _); [reflexivity | reflexivity |].
  exists msgs, w3. split; [exact H1 | apply H4; [reflexivity | simpl; lia]].
Defined.

(** A wait that times out returns the empty result and leaves the service
    as it found it: the registration it made is gone and its channel is
    closed. *)
Theorem wait_timeout_restores (cid a : string) (w w1 : World) (h : nat) :
  waiters (chat w) !! cid = None ->
  WaitForMessages_enter cid a w = Some (Registered h, w1) ->
  exists w2,
    WaitForMessages_resume cid a h TimedOut w1 = Some (Ok [], w2)
    /\ chat w2 = chat w
    /\ chans w2 !! h = None
    /\ counter w2 = counter w.
Proof.
  intros Hfree Henter.
  destruct (WaitForMessages_enter_registered _ _ _ _ _ Henter) as (_ & _ & ->).
  eexists. split; [reflexivity|]. simpl. split; [|split; [apply lookup_delete_eq | reflexivity]].
  unfold set_waiters. simpl. rewrite delete_insert_id by exact Hfree.
  now destruct (chat w).
Qed.

Lemma wait_timeout_restores_witness :
  exists w2,
    WaitForMessages_resume "c2" "" 0 TimedOut
      (mkWorld (mkChatService (NewMessageBuffer 1000 60) (<["c2" := 0%nat]> ∅) 1000 0)
               (<[0%nat := 0%nat]> ∅) 1 0)
    = Some (Ok [], w2)
    /\ chat w2 = NewChatService (NewMessageBuffer 1000 60).
Proof.
  destruct (wait_timeout_restores "c2" "" (NewWorld (NewMessageBuffer 1000 60))
              (mkWorld (mkChatService (NewMessageBuffer 1000 60) (<["c2" := 0%nat]> ∅)
                          1000 0)
                       (<[0%nat := 0%nat]> ∅) 1 0) 0%nat)
    as (w2 & H1 & H2 & _); [reflexivity | reflexivity |].
  exists w2. split; [exact H1 | exact H2].
Defined.

(** The registry holds one channel for each caller identifier. When a
    caller starts a second wait while its first one is still suspended, the
    first channel is displaced: the next [SendMessage] signals the second call
    only, and the receive case of the first call cannot fire. *)
Theorem second_wait_displaces_first (cid a a' u c col cid' : string) (t1 t2 t3 : Z)
    (w w1 w2 w3 : World) (h1 h2 : nat) (msg : Message) :
  (forall id h, waiters (chat w) !! id = Some h -> (h < next_chan w)%nat) ->
  WaitForMessages_enter cid a w = Some (Registered h1, w1) ->
  WaitForMessages_enter cid a' w1 = Some (Registered h2, w2) ->
  SendMessage u c col cid' t1 t2 t3 w2 = Some (Ok msg, w3) ->
  h1 <> h2
  /\ waiters (chat w3) !! cid = Some h2
  /\ (exists n, chans w3 !! h2 = Some (S n))
  /\ chans w3 !! h1 = Some O
  /\ WaitForMessages_resume cid a h1 Signaled w3 = None.
Proof.
  intros Hfresh He1 He2 Hsend.
  destruct (WaitForMessages_enter_registered _ _ _ _ _ He1) as (_ & Hh1 & Hw1).
  destruct (WaitForMessages_enter_registered _ _ _ _ _ He2) as (_ & Hh2 & Hw2).
  assert (Hne : h1 <> h2) by (rewrite Hh2, Hw1; simpl; lia).
  assert (Hreg2 : waiters (chat w2) !! cid = Some h2).
  { rewrite Hw2. simpl. apply lookup_insert_eq. }
  destruct (SendMessage_channels _ _ _ _ _ _ _ _ _ _ Hsend) as (Hall & Hframe & _).
  destruct (SendMessage_frame _ _ _ _ _ _ _ _ _ _ Hsend) as (Hw & _).
  assert (Hc1 : chans w3 !! h1 = Some O).
  { rewrite Hframe.
    - rewrite Hw2. simpl. rewrite lookup_insert_ne by (apply not_eq_sym, Hne).
      rewrite Hw1. simpl. apply lookup_insert_eq.
    - intros id Hid. rewrite Hw2 in Hid. simpl in Hid.
      rewrite lookup_insert in Hid. case_decide.
      + injection Hid as Hid. congruence.
      + rewrite Hw1 in Hid. simpl in Hid. rewrite lookup_insert_ne in Hid by assumption.
        specialize (Hfresh id h1 Hid). lia. }
  split; [exact Hne|]. split; [now rewrite Hw|]. split; [exact (Hall cid h2 Hreg2)|].
  split; [exact Hc1|]. unfold WaitForMessages_resume. now rewrite Hc1.
Qed.

Lemma second_wait_displaces_first_witness :
  chans (mkWorld (mkChatService
                    (mkMessageBuffer [mkMessage "msg_5_1" "alice" "hi" "" 6 67] 1000 60)
                    (<["c2" := 1%nat]> ∅) 1000 1)
                 (<[1%nat := 1%nat]> (<[0%nat := 0%nat]> ∅)) 2 1) !! 0%nat = Some O
  /\ WaitForMessages_resume "c2" "" 0 Signaled
       (mkWorld (mkChatService
                   (mkMessageBuffer [mkMessage "msg_5_1" "alice" "hi" "" 6 67] 1000 60)
                   (<["c2" := 1%nat]> ∅) 1000 1)
                (<[1%nat := 1%nat]> (<[0%nat := 0%nat]> ∅)) 2 1)
     = None.
Proof.
  destruct (second_wait_displaces_first "c2" "" "" "alice" "hi" "" "c1" 5 6 7
              (NewWorld (NewMessageBuffer 1000 60))
              (mkWorld (mkChatService (NewMessageBuffer 1000 60) (<["c2" := 0%nat]> ∅)
                          1000 0)
                       (<[0%nat := 0%nat]> ∅) 1 0)
              (mkWorld (mkChatService (NewMessageBuffer 1000 60) (<["c2" := 1%nat]> ∅)
                          1000 0)
                       (<[1%nat := 0%nat]> (<[0%nat := 0%nat]> ∅)) 2 0)
              (mkWorld (mkChatService
                          (mkMessageBuffer [mkMessage "msg_5_1" "alice" "hi" "" 6 67]
                             1000 60)
                          (<["c2" := 1%nat]> ∅) 1000 1)
                       (<[1%nat := 1%nat]> (<[0%nat := 0%nat]> ∅)) 2 1)
              0%nat 1%nat (mkMessage "msg_5_1" "alice" "hi" "" 6 67))
    as (_ & _ & _ & H4 & H5).
  - intros id h H. simpl in H. rewrite lookup_empty in H. discriminate H.
  - reflexivity.
  - reflexivity.
  - reflexivity.
  - split; [exact H4 | exact H5].
Defined.

(** The decimal digits never contain an underscore. *)
Lemma digit_char_not_underscore (d : Z) :
  d < 10 -> Ascii.eqb (digit_char d) "_" = false.
Proof.
  intros Hd. apply Ascii.eqb_neq. intros E.
  apply (f_equal N_of_ascii) in E. unfold digit_char in E.
  rewrite N_ascii_embedding in E by lia. vm_compute N_of_ascii in E. lia.
Qed.

Lemma format_digits_no_underscore (fuel : nat) :
  forall u acc, has_byte "_" acc = false ->
                has_byte "_" (format_digits fuel u acc) = false.
Proof.
  induction fuel as [|fuel IH]; intros u acc Hacc; simpl; [exact Hacc|].
  destruct (Z.ltb_spec u 10) as [Hlt|Hge].
  - simpl. now rewrite digit_char_not_underscore, Hacc by exact Hlt.
  - apply IH. simpl. rewrite digit_char_not_underscore, Hacc; [reflexivity|].
    apply Z.mod_pos_bound. lia.
Qed.

Lemma has_byte_cons (c c' : ascii) (s : string) :
  has_byte c (String c' s) = Ascii.eqb c' c || has_byte c s.
Proof. reflexivity. Qed.

Lemma FormatInt_never_underscore (t : Z) : has_byte "_" (FormatInt t) = false.
Proof.
  unfold FormatInt, FormatUint. destruct (t <? 0).
  - rewrite has_byte_cons, format_digits_no_underscore; reflexivity.
  - now apply format_digits_no_underscore.
Qed.

(** An identifier determines the counter value it was built from. *)
Lemma id_of_counter_inj (t t' c c' : Z) :
  0 <= c < 2 ^ 64 -> 0 <= c' < 2 ^ 64 ->
  id_of t c = id_of t' c' -> c = c'.
Proof.
  intros Hc Hc' E. unfold id_of in E.
  apply (inj (String.app "msg_")) in E.
  apply split_at_underscore in E as [_ E]; try apply FormatInt_never_underscore.
  destruct (FormatUint_digits c Hc) as (_ & <-).
  destruct (FormatUint_digits c' Hc') as (_ & <-). now rewrite E.
Qed.

Lemma NoDup_fmap_sublist (l1 l2 : list Message) :
  l1 `sublist_of` l2 -> NoDup (ID <$> l2) -> NoDup (ID <$> l1).
Proof.
  intros Hsub Hnd. eapply sublist_NoDup; [exact Hnd | now apply fmap_sublist].
Qed.

Lemma Add_sublist (now : Z) (msg : Message) (mb : MessageBuffer) :
  messages (Add now msg mb)
  `sublist_of` (messages mb ++ [set_ExpireAt msg (now + ttl mb)]).
Proof.
  unfold Add. destruct (_ >? _); simpl; [apply sublist_drop | reflexivity].
Qed.

(** Every operation of the broker keeps the stored identifiers generated
    and distinct, as long as the counter is below its last value. *)
Lemma chat_step_generated_ids (op : chat_op) (w w' : World) :
  chat_step op w = Some w' ->
  generated_ids w -> counter w < 2 ^ 64 - 1 ->
  generated_ids w' /\ counter w <= counter w' <= counter w + 1.
Proof.
  intros H (Hc0 & Hnd & Hgen) Hmax.
  assert (Hkeep : forall w1 : World,
             counter w1 = counter w ->
             messages (buffer (chat w1)) `sublist_of` messages (buffer (chat w)) ->
             generated_ids w1 /\ counter w <= counter w1 <= counter w + 1).
  { intros w1 Hcnt Hsub. split; [|lia]. unfold generated_ids. rewrite Hcnt.
    split; [exact Hc0|]. split; [exact (NoDup_fmap_sublist _ _ Hsub Hnd)|].
    intros m Hm. apply Hgen. exact (elem_of_sublist _ _ _ Hm Hsub). }
  destruct op as [u c col cid t1 t2 t3 | a | cid a | cid a h ev | now]; simpl in H.
  - destruct (SendMessage u c col cid t1 t2 t3 w) as [[[msg|e] w1]|] eqn:E;
      simpl in H; try discriminate; injection H as <-.
    + destruct (SendMessage_buffer _ _ _ _ _ _ _ _ _ _ E) as (msg0 & _ & Hid & Hbuf & Hcnt).
      unfold GenerateID in Hid, Hcnt. simpl in Hid, Hcnt.
      unfold wrap_uint64 in Hid, Hcnt. rewrite Z.mod_small in Hid, Hcnt by lia.
      fold (id_of t1 (counter w + 1)) in Hid.
      pose proof (Add_sublist t3 msg0 (buffer (chat w))) as Hsub. rewrite <- Hbuf in Hsub.
      assert (Hnd' : NoDup (ID <$> (messages (buffer (chat w))
                                     ++ [set_ExpireAt msg0 (t3 + ttl (buffer (chat w)))]))).
      { rewrite fmap_app. apply NoDup_app. split; [exact Hnd|]. split; [|apply NoDup_singleton].
        intros i Hi Hin. apply list_elem_of_singleton in Hin. simpl in Hin.
        apply list_elem_of_fmap in Hi as (m & -> & Hm).
        destruct (Hgen m Hm) as (t & c0 & Hidm & Hc0').
        rewrite Hidm, Hid in Hin. apply id_of_counter_inj in Hin; lia. }
      split; [|lia]. unfold generated_ids. rewrite Hcnt.
      split; [lia|]. split; [exact (NoDup_fmap_sublist _ _ Hsub Hnd')|].
      intros m Hm. apply (elem_of_sublist _ _ _ Hm) in Hsub.
      apply elem_of_app in Hsub as [Hold|Hnew].
      * destruct (Hgen m Hold) as (t & c0 & Hidm & Hc0'). exists t, c0. split; [exact Hidm | lia].
      * apply list_elem_of_singleton in Hnew as ->. simpl.
        exists t1, (counter w + 1). split; [exact Hid | lia].
    + unfold SendMessage in E. destruct (_ || _).
      * injection E as _ <-. apply Hkeep; reflexivity.
      * cbv zeta in E. destruct (notifyWaiters _); simpl in E; discriminate E.
  - destruct (GetMessages a w); simpl in H; [|discriminate]. injection H as <-.
    apply Hkeep; reflexivity.
  - unfold WaitForMessages_enter in H.
    destruct (GetAfter _ _ _) as [msgs|]; simpl in H; [|discriminate].
    destruct (len msgs >? 0); simpl in H; [injection H as <-; apply Hkeep; reflexivity|].
    destruct (_ >=? _); simpl in H; injection H as <-; apply Hkeep; reflexivity.
  - unfold WaitForMessages_resume in H. destruct ev.
    + destruct (chans w !! h) as [[|n]|]; try discriminate.
      simpl in H. destruct (GetAfter _ _ _); simpl in H; [|discriminate].
      injection H as <-. apply Hkeep; reflexivity.
    + simpl in H. injection H as <-. apply Hkeep; reflexivity.
  - injection H as <-. apply Hkeep; [reflexivity|]. simpl. apply sublist_filter.
Qed.

(** In every run of the broker that starts with an empty buffer and has
    fewer than [2^64] events, the stored messages carry pairwise distinct
    identifiers, so a cursor names at most one stored message. *)
Theorem stored_ids_distinct (ops : list chat_op) (b : MessageBuffer) (w : World) :
  messages b = [] ->
  Z.of_nat (length ops) < 2 ^ 64 ->
  chat_run ops (NewWorld b) = Some w ->
  NoDup (ID <$> messages (buffer (chat w))).
Proof.
  intros Hempty Hlen Hrun.
  enough (H : generated_ids w /\ counter w <= Z.of_nat (length ops)) by apply H.
  revert w Hlen Hrun. induction ops as [|op ops IH] using rev_ind; intros w Hlen Hrun.
  - injection Hrun as <-. unfold generated_ids. simpl. rewrite Hempty. simpl.
    split; [|lia]. split; [lia|]. split; [constructor|]. intros m Hm. inversion Hm.
  - rewrite length_app in Hlen |- *. simpl length in *.
    rewrite chat_run_snoc in Hrun.
    destruct (chat_run ops (NewWorld b)) as [w1|] eqn:E; simpl in Hrun; [|discriminate].
    destruct (IH w1) as (Hinv & Hcnt); [lia | reflexivity |].
    destruct (chat_step_generated_ids op w1 w Hrun Hinv) as (Hinv' & Hcnt'); [lia|].
    split; [exact Hinv' | lia].
Qed.

Lemma stored_ids_distinct_witness :
  exists w,
    chat_run [OpSend "alice" "hi" "" "c1" 5 6 7; OpSend "bob" "yo" "" "c2" 5 6 7]
             (NewWorld (NewMessageBuffer 10 60)) = Some w
    /\ NoDup (ID <$> messages (buffer (chat w))).
Proof.
  destruct (chat_run [OpSend "alice" "hi" "" "c1" 5 6 7; OpSend "bob" "yo" "" "c2" 5 6 7]
                     (NewWorld (NewMessageBuffer 10 60))) as [w|] eqn:E.
  - exists w. split; [reflexivity|].
    apply (stored_ids_distinct
             [OpSend "alice" "hi" "" "c1" 5 6 7; OpSend "bob" "yo" "" "c2" 5 6 7]
             (NewMessageBuffer 10 60) w).
    + reflexivity.
    + simpl. lia.
    + exact E.
  - vm_compute in E. discriminate E.
Defined.

Lemma Add_len_bounded (now : Z) (msg : Message) (mb : MessageBuffer) :
  0 <= maxSize mb -> len (messages mb) <= maxSize mb ->
  len (messages (Add now msg mb)) <= maxSize mb.
Proof.
  intros HC Hlen. unfold Add. rewrite len_app. unfold len in *. simpl length.
  destruct (Z.gtb_spec (Z.of_nat (length (messages mb)) + Z.of_nat 1) (maxSize mb));
    simpl; [|rewrite length_app; simpl; lia].
  rewrite length_drop, length_app. simpl. lia.
Qed.

(** Every operation of the broker keeps the buffer within its capacity. *)
Lemma chat_step_buffer_bounded (op : chat_op) (w w' : World) :
  chat_step op w = Some w' ->
  0 <= maxSize (buffer (chat w)) ->
  len (messages (buffer (chat w))) <= maxSize (buffer (chat w)) ->
  maxSize (buffer (chat w')) = maxSize (buffer (chat w))
  /\ len (messages (buffer (chat w'))) <= maxSize (buffer (chat w')).
Proof.
  intros H HC Hlen.
  destruct op as [u c col cid t1 t2 t3 | a | cid a | cid a h ev | now]; simpl in H.
  - destruct (SendMessage u c col cid t1 t2 t3 w) as [[[msg|e] w1]|] eqn:E;
      simpl in H; try discriminate; injection H as <-.
    + destruct (SendMessage_buffer _ _ _ _ _ _ _ _ _ _ E) as (msg0 & _ & _ & -> & _).
      rewrite Add_maxSize. split; [reflexivity|]. now apply Add_len_bounded.
    + unfold SendMessage in E. destruct (_ || _).
      * injection E as _ <-. now split.
      * cbv zeta in E. destruct (notifyWaiters _); simpl in E; discriminate E.
  - destruct (GetMessages a w); simpl in H; [|discriminate]. injection H as <-. now split.
  - unfold WaitForMessages_enter in H.
    destruct (GetAfter _ _ _) as [msgs|]; simpl in H; [|discriminate].
    destruct (len msgs >? 0); simpl in H; [injection H as <-; now split|].
    destruct (_ >=? _); simpl in H; injection H as <-; now split.
  - unfold WaitForMessages_resume in H. destruct ev.
    + destruct (chans w !! h) as [[|n]|]; try discriminate.
      simpl in H. destruct (GetAfter _ _ _); simpl in H; [|discriminate].
      injection H as <-. now split.
    + simpl in H. injection H as <-. now split.
  - injection H as <-. simpl. split; [reflexivity|].
    pose proof (length_filter (fun msg => now < ExpireAt msg) (messages (buffer (chat w)))).
    unfold len in *. lia.
Qed.

(** The figures [GetStats] reports stay within the configured bounds in
    every run of the broker, sweeps included: never more stored messages than
    the capacity of the buffer, never more waiting clients than [max_waiters],
    which is one thousand. *)
Theorem GetStats_bounded (ops : list chat_op) (C t : Z) (w : World) :
  0 <= C ->
  chat_run ops (NewWorld (NewMessageBuffer C t)) = Some w ->
  0 <= total_messages (GetStats w) <= C
  /\ 0 <= waiting_clients (GetStats w) <= max_waiters (GetStats w)
  /\ max_waiters (GetStats w) = 1000.
Proof.
  intros HC Hrun.
  destruct (chat_run_bounded ops _ w Hrun) as (Hreg & Hmax).
  { unfold registry_bounded. simpl. rewrite map_size_empty. lia. }
  unfold registry_bounded in Hreg. simpl in Hmax.
  assert (Hbuf : maxSize (buffer (chat w)) = C
                 /\ len (messages (buffer (chat w))) <= C).
  { clear Hreg Hmax. revert w Hrun.
    induction ops as [|op ops IH] using rev_ind; intros w Hrun.
    - injection Hrun as <-. simpl. unfold len. simpl. lia.
    - rewrite chat_run_snoc in Hrun.
      destruct (chat_run ops _) as [w1|] eqn:E; simpl in Hrun; [|discriminate].
      destruct (IH w1 eq_refl) as (Hm & Hl).
      destruct (chat_step_buffer_bounded op w1 w Hrun) as (Hm' & Hl'); [lia | lia |].
      split; [congruence | lia]. }
  unfold GetStats, Len. simpl. unfold len in *. lia.
Qed.

Lemma GetStats_bounded_witness :
  exists w,
    chat_run [OpSend "alice" "hi" "" "c1" 5 6 7; OpWaitEnter "c2" "msg_5_1"]
             (NewWorld (NewMessageBuffer 1 60)) = Some w
    /\ 0 <= total_messages (GetStats w) <= 1
    /\ 0 <= waiting_clients (GetStats w) <= max_waiters (GetStats w).
Proof.
  destruct (chat_run [OpSend "alice" "hi" "" "c1" 5 6 7; OpWaitEnter "c2" "msg_5_1"]
                     (NewWorld (NewMessageBuffer 1 60))) as [w|] eqn:E.
  - exists w. split; [reflexivity|].
    destruct (GetStats_bounded
                [OpSend "alice" "hi" "" "c1" 5 6 7; OpWaitEnter "c2" "msg_5_1"] 1 60 w)
      as (H1 & H2 & _); [lia | exact E |].
    split; [exact H1 | exact H2].
  - vm_compute in E. discriminate E.
Defined.

End BrokerMore.

(** * Further properties of the access controller *)

Module AccessMore.
Import services auth auth_runs.
Import AccessSpec.

(** The sweep only deletes. *)
Lemma sweep_fold_None (now maxAge : Z) (l : list (string * ClientInfo)) :
  forall (s : AuthService) (id : string),
    (clients s !! id = None ->
     clients (foldl (sweep_entry now maxAge) s l) !! id = None)
    /\ (rateLimiters s !! id = None ->
        rateLimiters (foldl (sweep_entry now maxAge) s l) !! id = None).
Proof.
  induction l as [|e l IH]; intros s id; simpl; [now split|].
  split; intros H; apply IH; unfold sweep_entry; destruct (_ >? _); simpl;
    try exact H; rewrite lookup_delete; case_decide; [reflexivity | exact H |
                                                      reflexivity | exact H].
Qed.

(** An identifier none of whose visited entries is stale keeps its
    record and its limiter. *)
Lemma sweep_fold_keep (now maxAge : Z) (l : list (string * ClientInfo)) :
  forall (s : AuthService) (id : string),
    (forall c, (id, c) ∈ l -> stale now maxAge c = false) ->
    clients (foldl (sweep_entry now maxAge) s l) !! id = clients s !! id
    /\ rateLimiters (foldl (sweep_entry now maxAge) s l) !! id = rateLimiters s !! id.
Proof.
  induction l as [|e l IH]; intros s id Hok; simpl; [now split|].
  destruct (IH (sweep_entry now maxAge s e) id) as (H1 & H2).
  { intros c Hc. apply Hok. now right. }
  rewrite H1, H2. unfold sweep_entry.
  destruct (now - LastSeen (snd e) >? maxAge) eqn:E; simpl; [|now split].
  destruct (decide (fst e = id)) as [Heq|Hne].
  - exfalso. destruct e as [id' c]. simpl in *. subst id'.
    specialize (Hok c ltac:(left)). unfold stale in Hok. congruence.
  - now rewrite !lookup_delete_ne.
Qed.

(** An identifier with a stale visited entry loses its record and its
    limiter. *)
Lemma sweep_fold_drop (now maxAge : Z) (l : list (string * ClientInfo)) :
  forall (s : AuthService) (id : string) (c : ClientInfo),
    (id, c) ∈ l -> stale now maxAge c = true ->
    clients (foldl (sweep_entry now maxAge) s l) !! id = None
    /\ rateLimiters (foldl (sweep_entry now maxAge) s l) !! id = None.
Proof.
  induction l as [|e l IH]; intros s id c Hin Hstale; [inversion Hin|].
  simpl. apply elem_of_cons in Hin as [<-|Hin].
  - unfold sweep_entry at 2 4. simpl. unfold stale in Hstale. rewrite Hstale.
    split; apply sweep_fold_None; simpl; apply lookup_delete_eq.
  - exact (IH _ id c Hin Hstale).
Qed.

(** What a sweep tick leaves of each caller. *)
Lemma CleanupOldClients_tick_lookup (now maxAge : Z) (s : AuthService) (id : string) :
  clients (CleanupOldClients_tick now maxAge s) !! id
  = match clients s !! id with
    | Some c => if stale now maxAge c then None else Some c
    | None => None
    end
  /\ rateLimiters (CleanupOldClients_tick now maxAge s) !! id
     = match clients s !! id with
       | Some c => if stale now maxAge c then None else rateLimiters s !! id
       | None => rateLimiters s !! id
       end.
Proof.
  unfold CleanupOldClients_tick.
  destruct (clients s !! id) as [c|] eqn:E.
  - destruct (stale now maxAge c) eqn:Hs.
    + apply (sweep_fold_drop now maxAge _ s id c); [|exact Hs].
      now apply elem_of_map_to_list.
    + destruct (sweep_fold_keep now maxAge (map_to_list (clients s)) s id) as (H1 & H2).
      { intros c' Hc'. apply elem_of_map_to_list in Hc'. congruence. }
      rewrite H1, H2, E. now split.
  - destruct (sweep_fold_keep now maxAge (map_to_list (clients s)) s id) as (H1 & H2).
    { intros c' Hc'. apply elem_of_map_to_list in Hc'. congruence. }
    rewrite H1, H2, E. now split.
Qed.


(** A successful authentication protects the caller from the sweep for
    [maxAge]: a tick no later than [maxAge] after it keeps the record, with
    the time of that authentication as last-seen time, and keeps the
    limiter. *)
Theorem ValidateAccess_refreshes_liveness (key id : string) (now now' maxAge : Z)
    (s : AuthService) :
  fst (ValidateAccess key id now s) = true ->
  now' - now <= maxAge ->
  let s1 := snd (ValidateAccess key id now s) in
  (exists c, clients (CleanupOldClients_tick now' maxAge s1) !! id = Some c
             /\ LastSeen c = now)
  /\ rateLimiters (CleanupOldClients_tick now' maxAge s1) !! id = rateLimiters s1 !! id.
Proof.
  intros Hok Hfresh s1.
  assert (Hc : exists c, clients s1 !! id = Some c /\ LastSeen c = now).
  { unfold s1, ValidateAccess in *. destruct (negb _); [discriminate|].
    destruct (String.eqb id ""); [discriminate|].
    destruct (clients s !! id) as [c|]; simpl; eexists;
      (split; [apply lookup_insert_eq | reflexivity]). }
  destruct Hc as (c & Hc & Hls).
  destruct (CleanupOldClients_tick_lookup now' maxAge s1 id) as (H1 & H2).
  rewrite H1, H2, Hc. unfold stale. rewrite Hls.
  destruct (Z.gtb_spec (now' - now) maxAge); [lia|].
  split; [exists c; now split | reflexivity].
Qed.

Lemma ValidateAccess_refreshes_liveness_witness :
  exists c,
    clients (CleanupOldClients_tick 150 100
               (snd (ValidateAccess "k" "c1" 50 (NewAuthService "k")))) !! "c1" = Some c
    /\ LastSeen c = 50.
Proof.
  apply (ValidateAccess_refreshes_liveness "k" "c1" 50 150 100 (NewAuthService "k")).
  - reflexivity.
  - lia.
Defined.

Lemma ValidateAccess_config (key id : string) (now : Z) (s : AuthService) :
  accessKey (snd (ValidateAccess key id now s)) = accessKey s
  /\ rateLimit (snd (ValidateAccess key id now s)) = rateLimit s
  /\ rateBurst (snd (ValidateAccess key id now s)) = rateBurst s.
Proof.
  unfold ValidateAccess. destruct (negb _); [now repeat split|].
  destruct (String.eqb id ""); [now repeat split|].
  destruct (clients s !! id); now repeat split.
Qed.

Lemma ValidateAccess_all_snoc (key id : string) (clock : list Z) (now : Z)
    (s : AuthService) :
  ValidateAccess_all key id (clock ++ [now]) s
  = snd (ValidateAccess key id now (ValidateAccess_all key id clock s)).
Proof. unfold ValidateAccess_all. now rewrite foldl_app. Qed.

(** The request count of a record is the number of successful
    authentications of its caller: after [n] accepted calls for a caller that
    was unknown before, with no sweep in between, its record has the time of
    the first call as first-seen time, the time of the last call as last-seen
    time and the count [n]. *)
Theorem ValidateAccess_counts (key id : string) (t0 : Z) (rest : list Z)
    (s : AuthService) :
  key = accessKey s -> id <> "" -> clients s !! id = None ->
  Z.of_nat (S (length rest)) <= max_int64 ->
  clients (ValidateAccess_all key id (t0 :: rest) s) !! id
  = Some {| ID := id; FirstSeen := t0; LastSeen := default t0 (last rest);
            MessageCount := Z.of_nat (S (length rest)) |}
  /\ size (clients (ValidateAccess_all key id (t0 :: rest) s)) = S (size (clients s)).
Proof.
  intros Hkey Hid Hnew. induction rest as [|t rest IH] using rev_ind; intros Hlen.
  - unfold ValidateAccess_all, ValidateAccess. simpl.
    rewrite Hkey, String.eqb_refl. simpl.
    rewrite (proj2 (String.eqb_neq id "") Hid), Hnew. simpl.
    split; [apply lookup_insert_eq | now apply map_size_insert_None].
  - change (t0 :: rest ++ [t]) with ((t0 :: rest) ++ [t]).
    rewrite ValidateAccess_all_snoc. rewrite length_app in Hlen. simpl in Hlen.
    destruct IH as (IH & IHsize); [lia|].
    set (s1 := ValidateAccess_all key id (t0 :: rest) s) in *.
    assert (Hk1 : accessKey s1 = accessKey s).
    { unfold s1. clear. generalize (t0 :: rest). intros l.
      induction l as [|x l IHl] using rev_ind; [reflexivity|].
      rewrite ValidateAccess_all_snoc.
      destruct (ValidateAccess_config key id x (ValidateAccess_all key id l s)). congruence. }
    unfold ValidateAccess. rewrite Hkey, Hk1, String.eqb_refl. simpl.
    rewrite (proj2 (String.eqb_neq id "") Hid), IH. simpl.
    rewrite lookup_insert_eq, last_snoc, length_app. simpl.
    split.
    + f_equal. unfold touch. simpl. f_equal.
      rewrite wrap_int64_small; unfold max_int64 in *; lia.
    + rewrite map_size_insert_Some by eauto. exact IHsize.
Qed.

Lemma ValidateAccess_counts_witness :
  clients (ValidateAccess_all "k" "c1" [10; 20; 30] (NewAuthService "k")) !! "c1"
  = Some {| ID := "c1"; FirstSeen := 10; LastSeen := 30; MessageCount := 3 |}.
Proof.
  apply (ValidateAccess_counts "k" "c1" 10 [20; 30] (NewAuthService "k")).
  - reflexivity.
  - discriminate.
  - reflexivity.
  - unfold max_int64. simpl. lia.
Defined.

Section RateLimiterMore.

Variable allows : Limiter -> Z -> bool.

(** The configuration of the controller and of its limiters. *)
Lemma auth_step_configured (s : AuthService) (op : auth_op) (r : Q) (b : Z) :
  (rateLimit s = r /\ rateBurst s = b
   /\ forall id lim, rateLimiters s !! id = Some lim -> limit lim = r /\ burst lim = b) ->
  rateLimit (auth_step allows s op) = r /\ rateBurst (auth_step allows s op) = b
  /\ forall id lim, rateLimiters (auth_step allows s op) !! id = Some lim ->
                    limit lim = r /\ burst lim = b.
Proof.
  intros (Hr & Hb & Hl).
  assert (Hsweep : forall now maxAge l s0,
             (rateLimit s0 = r /\ rateBurst s0 = b
              /\ forall id lim, rateLimiters s0 !! id = Some lim ->
                                limit lim = r /\ burst lim = b) ->
             rateLimit (foldl (sweep_entry now maxAge) s0 l) = r
             /\ rateBurst (foldl (sweep_entry now maxAge) s0 l) = b
             /\ forall id lim,
                 rateLimiters (foldl (sweep_entry now maxAge) s0 l) !! id = Some lim ->
                 limit lim = r /\ burst lim = b).
  { intros now maxAge l. induction l as [|e l IH]; intros s0 H0; [exact H0|].
    simpl. apply IH. destruct H0 as (H1 & H2 & H3).
    unfold sweep_entry. destruct (_ >? _); simpl; [|exact (conj H1 (conj H2 H3))].
    split; [exact H1|]. split; [exact H2|].
    intros id lim Hid. apply lookup_delete_Some in Hid as [_ Hid]. exact (H3 id lim Hid). }
  destruct op as [key id now | id now | now maxAge | now maxAge id]; simpl.
  - unfold ValidateAccess. destruct (negb _); [exact (conj Hr (conj Hb Hl))|].
    destruct (String.eqb id ""); [exact (conj Hr (conj Hb Hl))|].
    destruct (clients s !! id); simpl; [exact (conj Hr (conj Hb Hl))|].
    split; [exact Hr|]. split; [exact Hb|].
    intros id' lim. rewrite lookup_insert. case_decide.
    + intros Hx. injection Hx as <-. simpl. now split.
    + apply Hl.
  - unfold CheckRateLimit. destruct (rateLimiters s !! id) as [lim0|] eqn:E; simpl;
      [|exact (conj Hr (conj Hb Hl))].
    split; [exact Hr|]. split; [exact Hb|].
    intros id' lim. rewrite lookup_insert. case_decide.
    + intros Hx. injection Hx as <-. simpl. exact (Hl id lim0 E).
    + apply Hl.
  - apply Hsweep. exact (conj Hr (conj Hb Hl)).
  - destruct (clients s !! id) as [c|]; [|exact (conj Hr (conj Hb Hl))].
    apply (Hsweep now maxAge [(id, c)] s). exact (conj Hr (conj Hb Hl)).
Qed.

(** Every caller is throttled with the same configuration: in every run
    of the controller from start-up, each limiter carries the rate ten per
    second and the burst twenty, however often it has been consulted. *)
Theorem limiters_configured (key : string) (ops : list auth_op) (id : string)
    (lim : Limiter) :
  rateLimiters (auth_run allows ops (NewAuthService key)) !! id = Some lim ->
  limit lim = inject_Z 10 /\ burst lim = 20.
Proof.
  enough (H : rateLimit (auth_run allows ops (NewAuthService key)) = inject_Z 10
              /\ rateBurst (auth_run allows ops (NewAuthService key)) = 20
              /\ forall id lim,
                  rateLimiters (auth_run allows ops (NewAuthService key)) !! id = Some lim ->
                  limit lim = inject_Z 10 /\ burst lim = 20).
  { intros Hl. exact (proj2 (proj2 H) id lim Hl). }
  unfold auth_run. induction ops as [|op ops IH] using rev_ind; simpl.
  - split; [reflexivity|]. split; [reflexivity|].
    intros id' lim' H. rewrite lookup_empty in H. discriminate H.
  - rewrite foldl_app. simpl. now apply auth_step_configured.
Qed.

End RateLimiterMore.

Lemma limiters_configured_witness :
  exists lim,
    rateLimiters (auth_run (fun _ _ => true)
                    [OpValidate "k" "c1" 10; OpCheckRate "c1" 11]
                    (NewAuthService "k")) !! "c1" = Some lim
    /\ limit lim = inject_Z 10 /\ burst lim = 20.
Proof.
  eexists. split; [reflexivity|].
  apply (limiters_configured (fun _ _ => true) "k"
           [OpValidate "k" "c1" 10; OpCheckRate "c1" 11] "c1").
  reflexivity.
Defined.

End AccessMore.

(** * Further properties of the palette and the identifiers *)

Module UtilsMore.
Import utils colors notions.
Import IdSpec.

(** The keys of the palette. *)
Lemma IsValidColor_cases (color : string) :
  IsValidColor color = true -> color = "" \/ color ∈ tags.
Proof.
  unfold IsValidColor, validColors, tags.
  do 8 (rewrite lookup_insert; case_decide;
        [subst color; intros _; right; apply list_elem_of_In; simpl; tauto | ]).
  rewrite lookup_insert. case_decide; [subst; now left|].
  rewrite lookup_empty. discriminate.
Qed.

Lemma tags_fixed (t : string) : t ∈ tags -> NormalizeColor t = t /\ t <> "".
Proof.
  intros H. apply list_elem_of_In in H. simpl in H.
  repeat (destruct H as [<-|H]; [split; [vm_compute; reflexivity | discriminate]|]).
  contradiction.
Qed.

Lemma append_nonempty_l (s t : string) : s <> "" -> s +:+ t <> "".
Proof. destruct s; [congruence | discriminate]. Qed.

Lemma NormalizeColor_cases (color : string) :
  color <> "" ->
  exists c2, c2 <> ""
             /\ NormalizeColor color
                = if default false (validColors !! c2) then c2 else "[white]".
Proof.
  intros Hne. unfold NormalizeColor. rewrite (proj2 (String.eqb_neq color "") Hne).
  cbv zeta. destruct (negb (HasPrefix color "["));
    match goal with |- context [HasSuffix ?c _] => destruct (negb (HasSuffix c "]")) end;
    eexists; (split; [|reflexivity]).
  - now apply append_nonempty_l.
  - discriminate.
  - now apply append_nonempty_l.
  - exact Hne.
Qed.

(** [NormalizeColor] always answers with one of the eight bracketed tags
    of the palette, never with the empty string; it leaves each of these tags
    as it is, so normalising twice is normalising once. *)
Theorem NormalizeColor_palette (color : string) :
  NormalizeColor color ∈ tags
  /\ IsValidColor (NormalizeColor color) = true
  /\ NormalizeColor color <> ""
  /\ (color ∈ tags -> NormalizeColor color = color)
  /\ NormalizeColor (NormalizeColor color) = NormalizeColor color.
Proof.
  assert (Hin : NormalizeColor color ∈ tags).
  { destruct (String.eqb_spec color "") as [->|Hne].
    - apply list_elem_of_In. simpl. tauto.
    - destruct (NormalizeColor_cases color Hne) as (c2 & H2 & ->).
      destruct (default false (validColors !! c2)) eqn:E.
      + destruct (IsValidColor_cases c2 E) as [H|H]; [contradiction | exact H].
      + apply list_elem_of_In. simpl. tauto. }
  destruct (tags_fixed _ Hin) as (Hfix & Hne).
  split; [exact Hin|]. split; [|split; [exact Hne|split; [|exact Hfix]]].
  - apply list_elem_of_In in Hin. simpl in Hin.
    repeat (destruct Hin as [<-|Hin]; [reflexivity|]). contradiction.
  - intros Ht. apply (tags_fixed _ Ht).
Qed.

Lemma FormatUint_inj (u u' : Z) :
  0 <= u < 2 ^ 64 -> 0 <= u' < 2 ^ 64 -> FormatUint u = FormatUint u' -> u = u'.
Proof.
  intros Hu Hu' E.
  destruct (FormatUint_digits u Hu) as (_ & <-).
  destruct (FormatUint_digits u' Hu') as (_ & <-). now rewrite E.
Qed.

Lemma FormatUint_head_digit (u : Z) (c : ascii) (s : string) :
  0 <= u < 2 ^ 64 -> FormatUint u = String c s -> c <> "-"%char.
Proof.
  intros Hu E Hc. destruct (FormatUint_digits u Hu) as (Hd & _).
  rewrite E in Hd. subst c. simpl in Hd. discriminate Hd.
Qed.

Lemma FormatInt_inj (t t' : Z) :
  - 2 ^ 63 <= t < 2 ^ 63 -> - 2 ^ 63 <= t' < 2 ^ 63 ->
  FormatInt t = FormatInt t' -> t = t'.
Proof.
  intros Ht Ht' E. unfold FormatInt in E.
  assert (P : 2 ^ 63 < 2 ^ 64) by (vm_compute; reflexivity).
  destruct (Z.ltb_spec t 0), (Z.ltb_spec t' 0).
  - injection E as E. apply FormatUint_inj in E; lia.
  - symmetry in E. apply FormatUint_head_digit in E; [contradiction | lia].
  - apply FormatUint_head_digit in E; [contradiction | lia].
  - apply FormatUint_inj in E; lia.
Qed.

(** An identifier can be read back: two calls of [GenerateID] that return
    the same identifier read the same clock value and left the same counter
    value. *)
Theorem GenerateID_injective (t t' counter counter' : Z) :
  - 2 ^ 63 <= t < 2 ^ 63 -> - 2 ^ 63 <= t' < 2 ^ 63 ->
  fst (GenerateID t counter) = fst (GenerateID t' counter') ->
  t = t' /\ snd (GenerateID t counter) = snd (GenerateID t' counter').
Proof.
  intros Ht Ht' E. unfold GenerateID in *. simpl in *.
  apply (inj (String.app "msg_")) in E.
  apply split_at_underscore in E as [E1 E2];
    try (apply FormatInt_no_underscore; assumption).
  split; [now apply FormatInt_inj|].
  apply FormatUint_inj; [apply wrap_uint64_range | apply wrap_uint64_range | exact E2].
Qed.

Lemma GenerateID_injective_witness :
  1700000000000000000 = 1700000000000000000
  /\ snd (GenerateID 1700000000000000000 8) = snd (GenerateID 1700000000000000000 8).
Proof.
  apply (GenerateID_injective 1700000000000000000 1700000000000000000 8 8).
  - lia.
  - lia.
  - reflexivity.
Defined.

End UtilsMore.

(** * The wire format of a message *)

Module WireMore.
Import models utils services wire.

(** A list without repetition all of whose members are [a]. *)
Lemma NoDup_all_equal {A : Type} (l : list A) (a : A) :
  NoDup l -> a ∈ l -> (forall x, x ∈ l -> x = a) -> l = [a].
Proof.
  intros Hnd Hin Hall. destruct l as [|x l]; [inversion Hin|].
  assert (x = a) as -> by (apply Hall; left).
  destruct l as [|y l]; [reflexivity|].
  assert (y = a) as -> by (apply Hall; right; left).
  apply NoDup_cons in Hnd as [Hnot _]. exfalso. apply Hnot. left.
Qed.

Lemma known_key (k : string) :
  default false (client.knownPollKeys !! k) = false
  <-> k <> "color" /\ k <> "id" /\ k <> "timestamp".
Proof.
  unfold client.knownPollKeys.
  rewrite lookup_insert. case_decide; [subst; simpl; split; [discriminate | tauto]|].
  rewrite lookup_insert. case_decide; [subst; simpl; split; [discriminate | tauto]|].
  rewrite lookup_insert. case_decide; [subst; simpl; split; [discriminate | tauto]|].
  rewrite lookup_empty. simpl. split; [intros _; repeat split; congruence | reflexivity].
Qed.

(** The entries of the object built for a message. *)
Lemma ToClientFormat_lookup (m : Message) (k v : string) :
  ToClientFormat m !! k = Some v <->
  (k = "id" /\ v = models.ID m)
  \/ (k <> "id" /\ k = "color" /\ v = Color m)
  \/ (k <> "id" /\ k <> "color" /\ k = Username m /\ v = Content m).
Proof.
  unfold ToClientFormat.
  rewrite lookup_insert. case_decide as H1.
  - subst k. split; [intros H; injection H as <-; now left|].
    intros [[_ ->]|[[H _]|[H _]]]; [reflexivity | contradiction | contradiction].
  - rewrite lookup_insert. case_decide as H2.
    + subst k. split; [intros H; injection H as <-; right; left; now repeat split|].
      intros [[H _]|[(_ & _ & ->)|(_ & H & _)]]; [discriminate | reflexivity | contradiction].
    + rewrite lookup_insert. case_decide as H3.
      * subst k. split; [intros H; injection H as <-; right; right; now repeat split|].
        intros [[H _]|[(_ & H & _)|(_ & _ & _ & ->)]];
          [congruence | congruence | reflexivity].
      * rewrite lookup_empty. split; [discriminate|].
        intros [[H _]|[(_ & H & _)|(_ & _ & H & _)]]; congruence.
Qed.

(** The dynamic entries the client finds in the object of a message. *)
Lemma ToClientFormat_dynamic (m : Message) :
  filter (fun kv : string * string =>
            default false (client.knownPollKeys !! fst kv) = false)
         (map_to_list (ToClientFormat m))
  = if bool_decide (Username m ∈ ["color"; "id"; "timestamp"]) then []
    else [(Username m, Content m)].
Proof.
  set (P := fun kv : string * string =>
              default false (client.knownPollKeys !! fst kv) = false).
  assert (Hel : forall kv, kv ∈ filter P (map_to_list (ToClientFormat m)) <->
                           kv = (Username m, Content m)
                           /\ Username m <> "color" /\ Username m <> "id"
                           /\ Username m <> "timestamp").
  { intros [k v]. rewrite list_elem_of_filter, elem_of_map_to_list, ToClientFormat_lookup.
    unfold P. simpl. rewrite known_key. split.
    - intros ((Hc & Hi & Ht) & [[H _]|[(_ & H & _)|(_ & _ & -> & ->)]]);
        [contradiction | contradiction | now repeat split].
    - intros (Heq & Hc & Hi & Ht). injection Heq as -> ->.
      split; [now repeat split|]. right. right. now repeat split. }
  case_bool_decide as Hres.
  - destruct (filter P _) as [|kv l] eqn:E; [reflexivity|]. exfalso.
    destruct (proj1 (Hel kv)) as (_ & Hc & Hi & Ht); [first [rewrite E; left | left]|].
    apply list_elem_of_In in Hres. simpl in Hres. intuition congruence.
  - apply NoDup_all_equal.
    + apply NoDup_filter, NoDup_map_to_list.
    + apply Hel. split; [reflexivity|].
      repeat split; intros Heq; apply Hres; rewrite Heq; apply list_elem_of_In; simpl; tauto.
    + intros kv Hkv. now apply Hel in Hkv as [-> _].
Qed.

Lemma ToClientFormat_parsed_lemma (m : Message) :
  Username m <> "" -> Content m <> "" -> models.ID m <> "" ->
  client.parsePollEntry (ToClientFormat m)
  = if bool_decide (Username m ∈ ["color"; "id"; "timestamp"]) then None
    else Some (client.mkPollMessage (Username m) (Content m) (Color m) (models.ID m) None).
Proof.
  intros Hu Hc Hi. unfold client.parsePollEntry. rewrite ToClientFormat_dynamic.
  case_bool_decide as Hres; simpl; [reflexivity|].
  rewrite (proj2 (String.eqb_neq _ _) Hu), (proj2 (String.eqb_neq _ _) Hc). simpl.
  assert (Hid : ToClientFormat m !! "id" = Some (models.ID m)).
  { apply ToClientFormat_lookup. now left. }
  assert (Hcol : ToClientFormat m !! "color" = Some (Color m)).
  { apply ToClientFormat_lookup. right. left. now repeat split. }
  assert (Hts : ToClientFormat m !! "timestamp" = None).
  { destruct (ToClientFormat m !! "timestamp") as [v|] eqn:E; [|reflexivity].
    apply ToClientFormat_lookup in E as [[H _]|[(_ & H & _)|(_ & _ & H & _)]];
      try discriminate.
    exfalso. apply Hres. rewrite <- H. apply list_elem_of_In. simpl. tauto. }
  rewrite Hid, Hcol, Hts. simpl.
  now rewrite (proj2 (String.eqb_neq _ _) Hi).
Qed.

(** The object the poll handler builds for a message, read by the client:
    the client recovers name, text, colour and identifier exactly when the
    name is not one of the keys [color], [id] and [timestamp]; for these three
    names the entry has no dynamic key left and the client skips it. *)
Theorem ToClientFormat_parsed (m : Message) :
  Username m <> "" -> Content m <> "" -> models.ID m <> "" ->
  client.parsePollEntry (ToClientFormat m)
  = if bool_decide (Username m ∈ ["color"; "id"; "timestamp"]) then None
    else Some (client.mkPollMessage (Username m) (Content m) (Color m) (models.ID m) None).
Proof. exact (ToClientFormat_parsed_lemma m). Qed.

Lemma ToClientFormat_parsed_witness :
  client.parsePollEntry (ToClientFormat (mkMessage "msg_5_1" "alice" "hi" "[white]" 6 67))
  = Some (client.mkPollMessage "alice" "hi" "[white]" "msg_5_1" None)
  /\ client.parsePollEntry (ToClientFormat (mkMessage "msg_5_2" "color" "hi" "[white]" 6 67))
     = None.
Proof.
  split.
  - apply (ToClientFormat_parsed (mkMessage "msg_5_1" "alice" "hi" "[white]" 6 67));
      discriminate.
  - apply (ToClientFormat_parsed (mkMessage "msg_5_2" "color" "hi" "[white]" 6 67));
      discriminate.
Defined.

End WireMore.

(** * The send and poll handlers *)

Module HandlersMore.
Import models utils services controllers wire colors.
Import StoreSpec BrokerSpec.

(** How the send handler reaches each of its answers. *)
Lemma SendController_Handle_cases (allows : auth.Limiter -> Z -> bool)
    (key cid U C Col : string) (t_auth t_rate t1 t2 t3 : Z)
    (a : auth.AuthService) (w : World)
    (st : Z) (om : option Message) (a' : auth.AuthService) (w' : World) :
  SendController_Handle allows key cid U C Col t_auth t_rate t1 t2 t3 a w
  = Some (st, om, a', w') ->
  (st = 401 /\ om = None /\ w' = w /\ a' = a
   /\ fst (auth.ValidateAccess key cid t_auth a) = false)
  \/ (st = 429 /\ om = None /\ w' = w
      /\ fst (auth.ValidateAccess key cid t_auth a) = true)
  \/ (st = 500 /\ om = None
      /\ exists e, SendMessage U C (if String.eqb Col "" then "[white]" else Col)
                     cid t1 t2 t3 w = Some (Err e, w'))
  \/ (st = 200
      /\ exists msg, om = Some msg
           /\ SendMessage U C (if String.eqb Col "" then "[white]" else Col)
                cid t1 t2 t3 w = Some (Ok msg, w')).
Proof.
  unfold SendController_Handle. intros H.
  destruct (auth.ValidateAccess key cid t_auth a) as [ok a1] eqn:Ev. simpl in H.
  destruct ok; simpl in H.
  2:{ injection H as <- <- <- <-. left.
      assert (a1 = a) as ->.
      { unfold auth.ValidateAccess in Ev. destruct (negb _); [congruence|].
        destruct (String.eqb cid ""); [congruence|].
        destruct (auth.clients a !! cid); discriminate Ev. }
      now repeat split. }
  destruct (auth.CheckRateLimit allows cid t_rate a1) as [ok2 a2]. simpl in H.
  destruct ok2; simpl in H.
  2:{ injection H as <- <- <- <-. right. left. now repeat split. }
  destruct (SendMessage _ _ _ _ _ _ _ _) as [[[msg|e] w1]|] eqn:Es; simpl in H;
    [| |discriminate]; injection H as <- <- <- <-.
  - right. right. right. split; [reflexivity|]. exists msg. now split.
  - right. right. left. split; [reflexivity|]. split; [reflexivity|]. now exists e.
Qed.

(** An error of [SendMessage] means an empty name or text and no change. *)
Lemma SendMessage_error_empty (U C Col cid : string) (t1 t2 t3 : Z) (w : World) (e : error) (w' : World) :
  SendMessage U C Col cid t1 t2 t3 w = Some (Err e, w') ->
  (U = "" \/ C = "") /\ w' = w.
Proof.
  unfold SendMessage. destruct (String.eqb U "" || String.eqb C "") eqn:E.
  - intros H. injection H as _ <-. split; [|reflexivity]. now apply orb_eqb_empty.
  - cbv zeta. destruct (notifyWaiters _); simpl; discriminate.
Qed.

(** The colour [SendMessage] stores for a colour that is not empty. *)
Lemma stored_color_tag (color : string) :
  color <> "" ->
  (if negb (String.eqb color "") && negb (IsValidColor color) then "[white]" else color)
  ∈ tags.
Proof.
  intros Hne. rewrite (proj2 (String.eqb_neq _ _) Hne). simpl.
  destruct (IsValidColor color) eqn:E; simpl.
  - destruct (UtilsMore.IsValidColor_cases color E) as [H|H]; [contradiction | exact H].
  - apply list_elem_of_In. simpl. tauto.
Qed.

(** The send handler answers 200, 401, 429 or 500. Only a 200 changes the
    broker; it stores a message with the name and text of the request, both
    not empty, and with a colour that is one of the eight tags of the palette,
    never the empty string; a 401 leaves the access controller unchanged as
    well. *)
Theorem SendController_outcomes (allows : auth.Limiter -> Z -> bool)
    (key cid U C Col : string) (t_auth t_rate t1 t2 t3 : Z)
    (a : auth.AuthService) (w : World)
    (st : Z) (om : option Message) (a' : auth.AuthService) (w' : World) :
  SendController_Handle allows key cid U C Col t_auth t_rate t1 t2 t3 a w
  = Some (st, om, a', w') ->
  (st = 200 \/ st = 401 \/ st = 429 \/ st = 500)
  /\ (st <> 200 -> om = None /\ w' = w)
  /\ (st = 401 -> a' = a /\ (key <> auth.accessKey a \/ cid = ""))
  /\ (st = 500 -> U = "" \/ C = "")
  /\ (st = 200 ->
      exists msg, om = Some msg /\ Username msg = U /\ Content msg = C
                  /\ U <> "" /\ C <> "" /\ Color msg ∈ tags).
Proof.
  intros H.
  assert (Hcol : (if String.eqb Col "" then "[white]" else Col) <> "").
  { destruct (String.eqb_spec Col ""); [discriminate | assumption]. }
  destruct (SendController_Handle_cases _ _ _ _ _ _ _ _ _ _ _ _ _ _ _ _ _ H)
    as [(-> & -> & -> & -> & Hv)|[(-> & -> & -> & Hv)|[(-> & -> & e & Hs)|(-> & msg & -> & Hs)]]].
  - split; [tauto|]. split; [now split|]. split; [|split; [discriminate | discriminate]].
    intros _. split; [reflexivity|].
    unfold auth.ValidateAccess in Hv.
    destruct (String.eqb_spec key (auth.accessKey a)); simpl in Hv; [|now left].
    destruct (String.eqb_spec cid ""); [now right|].
    destruct (auth.clients a !! cid); discriminate Hv.
  - split; [tauto|]. split; [now split|]. repeat split; discriminate.
  - destruct (SendMessage_error_empty U C _ cid t1 t2 t3 w e w' Hs) as (Hemp & ->).
    split; [tauto|]. split; [now split|]. split; [discriminate|].
    split; [intros _; exact Hemp | discriminate].
  - split; [tauto|]. split; [congruence|]. split; [discriminate|]. split; [discriminate|].
    intros _. exists msg. split; [reflexivity|].
    unfold SendMessage in Hs.
    destruct (String.eqb U "" || String.eqb C "") eqn:E; [discriminate|].
    apply orb_false_iff in E as [Eu Ec].
    apply String.eqb_neq in Eu. apply String.eqb_neq in Ec.
    cbv zeta in Hs. destruct (notifyWaiters _); simpl in Hs; [|discriminate].
    injection Hs as <- _. simpl. repeat split; try assumption.
    now apply stored_color_tag.
Qed.

Lemma SendController_outcomes_witness :
  exists st om a' w',
    SendController_Handle (fun _ _ => true) "k" "c1" "alice" "hi" "" 1 2 5 6 7
      (auth.NewAuthService "k") (NewWorld (NewMessageBuffer 10 60))
    = Some (st, om, a', w')
    /\ (st = 200 \/ st = 401 \/ st = 429 \/ st = 500).
Proof.
  destruct (SendController_Handle (fun _ _ => true) "k" "c1" "alice" "hi" "" 1 2 5 6 7
              (auth.NewAuthService "k") (NewWorld (NewMessageBuffer 10 60)))
    as [[[[st om] a'] w']|] eqn:E.
  - exists st, om, a', w'. split; [reflexivity|].
    apply (SendController_outcomes (fun _ _ => true) "k" "c1" "alice" "hi" "" 1 2 5 6 7
             (auth.NewAuthService "k") (NewWorld (NewMessageBuffer 10 60))
             st om a' w' E).
  - vm_compute in E. discriminate E.
Defined.

Lemma id_nonempty (t c : Z) : fst (GenerateID t c) <> "".
Proof. unfold GenerateID. simpl. discriminate. Qed.

(** Publish, then poll. After the send handler has answered 200 for a
    message, on a buffer of capacity at least one, a poll without cursor by
    any caller with the right key is answered at once with status 200, without
    being suspended and without a change to the broker; the last object of the
    body is that of the message, and the client reads from it the name, the
    text, the colour and the identifier of the message, provided the name is
    not one of the keys [color], [id] and [timestamp]. *)
Theorem send_then_poll (allows : auth.Limiter -> Z -> bool)
    (key cid U C Col : string) (t_auth t_rate t1 t2 t3 : Z)
    (a a1 : auth.AuthService) (w w1 : World) (msg : Message)
    (key' cid' : string) (t_poll : Z) :
  SendController_Handle allows key cid U C Col t_auth t_rate t1 t2 t3 a w
  = Some (200, Some msg, a1, w1) ->
  1 <= maxSize (buffer (chat w)) ->
  key' = auth.accessKey a1 -> cid' <> "" ->
  exists body a2,
    PollController_enter key' cid' "" t_poll a1 w1
    = Some (PollResponded 200 body, a2, w1)
    /\ last body = Some (ToClientFormat msg)
    /\ (U ∉ ["color"; "id"; "timestamp"] ->
        last (client.parsePollMessages body)
        = Some (client.mkPollMessage U C (Color msg) (models.ID msg) None)).
Proof.
  intros Hsend HC Hkey Hcid.
  destruct (SendController_Handle_cases _ _ _ _ _ _ _ _ _ _ _ _ _ _ _ _ _ Hsend)
    as [(H & _)|[(H & _)|[(H & _)|(_ & msg' & Hm & Hs)]]]; try discriminate H.
  injection Hm as <-.
  destruct (BrokerMore.SendMessage_buffer _ _ _ _ _ _ _ _ _ _ Hs)
    as (msg0 & Hmsg & Hid & Hbuf & _).
  assert (Hfields : Username msg = U /\ Content msg = C /\ U <> "" /\ C <> "").
  { unfold SendMessage in Hs.
    destruct (String.eqb U "" || String.eqb C "") eqn:E; [discriminate|].
    apply orb_false_iff in E as [Eu Ec].
    apply String.eqb_neq in Eu. apply String.eqb_neq in Ec.
    cbv zeta in Hs. destruct (notifyWaiters _); simpl in Hs; [|discriminate].
    injection Hs as <- _. now repeat split. }
  destruct Hfields as (HU & HCn & HUne & HCne).
  assert (Hmsgs : exists older, messages (buffer (chat w1)) = older ++ [msg]).
  { rewrite Hbuf, Add_messages by exact HC. rewrite <- Hmsg. eauto. }
  destruct Hmsgs as (older & Hmsgs).
  assert (Hread : exists res, GetAfter (buffer (chat w1)) "" 50 = Some res
                              /\ last res = Some msg).
  { unfold GetAfter. simpl String.eqb. cbv iota.
    rewrite getLastMessages_nonneg by lia. eexists. split; [reflexivity|].
    rewrite BrokerMore.last_drop_lt; rewrite Hmsgs; [apply last_snoc|].
    rewrite length_app. simpl. lia. }
  destruct Hread as (res & Hread & Hlast).
  assert (Hlen : (len res >? 0) = true).
  { apply Z.gtb_lt. destruct res; [discriminate Hlast | unfold len; simpl; lia]. }
  unfold PollController_enter, auth.ValidateAccess.
  rewrite Hkey, String.eqb_refl. simpl.
  rewrite (proj2 (String.eqb_neq _ _) Hcid).
  assert (Henter : WaitForMessages_enter cid' "" w1 = Some (Returned res, w1)).
  { unfold WaitForMessages_enter. rewrite Hread. simpl. now rewrite Hlen. }
  assert (Hz : (len res =? 0) = false).
  { apply Z.gtb_lt in Hlen. now destruct (Z.eqb_spec (len res) 0); [lia|]. }
  assert (Hbody : last (ToClientFormat <$> res) = Some (ToClientFormat msg)).
  { now rewrite fmap_last, Hlast. }
  assert (Hparse : U ∉ ["color"; "id"; "timestamp"] ->
                   last (client.parsePollMessages (ToClientFormat <$> res))
                   = Some (client.mkPollMessage U C (Color msg) (models.ID msg) None)).
  { intros Hres. apply last_Some in Hlast as [res' ->].
    rewrite fmap_app. unfold client.parsePollMessages. rewrite omap_app. simpl.
    rewrite WireMore.ToClientFormat_parsed_lemma.
    - rewrite HU, HCn. rewrite bool_decide_eq_false_2 by exact Hres. apply last_snoc.
    - now rewrite HU.
    - now rewrite HCn.
    - rewrite Hmsg. simpl. rewrite Hid. apply id_nonempty. }
  destruct (auth.clients a1 !! cid'); cbn [fst snd negb]; rewrite Henter;
    cbn [fst snd mbind option_bind]; rewrite Hz; cbn [fst snd];
    eexists _, _; (split; [reflexivity|]); (split; [exact Hbody | exact Hparse]).
Qed.

Lemma send_then_poll_witness :
  exists msg a1 w1 body a2,
    SendController_Handle (fun _ _ => true) "k" "c1" "alice" "hi" "" 1 2 5 6 7
      (auth.NewAuthService "k") (NewWorld (NewMessageBuffer 10 60))
    = Some (200, Some msg, a1, w1)
    /\ PollController_enter "k" "c2" "" 9 a1 w1 = Some (PollResponded 200 body, a2, w1)
    /\ last (client.parsePollMessages body)
       = Some (client.mkPollMessage "alice" "hi" (Color msg) (models.ID msg) None).
Proof.
  destruct (SendController_Handle (fun _ _ => true) "k" "c1" "alice" "hi" "" 1 2 5 6 7
              (auth.NewAuthService "k") (NewWorld (NewMessageBuffer 10 60)))
    as [[[[st [msg|]] a1] w1]|] eqn:E;
    try (vm_compute in E; discriminate E).
  assert (st = 200) as ->.
  { pose proof E as E'. vm_compute in E'. congruence. }
  assert (Hkey : "k" = auth.accessKey a1).
  { pose proof E as E'. vm_compute in E'. inversion E'. reflexivity. }
  destruct (send_then_poll (fun _ _ => true) "k" "c1" "alice" "hi" "" 1 2 5 6 7
              (auth.NewAuthService "k") a1 (NewWorld (NewMessageBuffer 10 60)) w1 msg
              "k" "c2" 9 E)
    as (body & a2 & H1 & _ & H3).
  - simpl. lia.
  - exact Hkey.
  - discriminate.
  - exists msg, a1, w1, body, a2. split; [reflexivity|]. split; [exact H1|].
    apply H3. intros Hin. apply list_elem_of_In in Hin. simpl in Hin.
    repeat (destruct Hin as [Hin|Hin]; [discriminate Hin|]). contradiction.
Defined.

End HandlersMore.

(** * The poll loop of the client *)

Module ClientMore.
Import client.

Lemma pollLoop_run_app (oks1 oks2 : list bool) (st : loop_state) :
  pollLoop_run (oks1 ++ oks2) st
  = (fst (pollLoop_run oks1 st) ++ fst (pollLoop_run oks2 (snd (pollLoop_run oks1 st))),
     snd (pollLoop_run oks2 (snd (pollLoop_run oks1 st)))).
Proof.
  revert st. induction oks1 as [|ok oks1 IH]; intros st; simpl.
  - now destruct (pollLoop_run oks2 st).
  - rewrite IH. simpl. now rewrite app_assoc.
Qed.

(** One failed poll doubles the delay, up to thirty seconds. *)
Lemma pollLoop_step_backoff (ok : bool) (st : loop_state) :
  second <= backoff st <= maxBackoff ->
  backoff (snd (pollLoop_step ok st))
  = (if ok then second else Z.min (2 * backoff st) maxBackoff)
  /\ second <= backoff (snd (pollLoop_step ok st)) <= maxBackoff.
Proof.
  unfold pollLoop_step, min, maxBackoff, wrap_int64 in *. unfold second in *. intros Hb.
  destruct ok; simpl; [lia|].
  rewrite Z.mod_small by lia.
  match goal with |- context [?x <? ?y] => destruct (Z.ltb_spec x y) end; lia.
Qed.

Lemma pollLoop_failures (k : nat) :
  forall st, second <= backoff st <= maxBackoff ->
    backoff (snd (pollLoop_run (replicate k false) st))
    = Z.min (2 ^ Z.of_nat k * backoff st) maxBackoff.
Proof.
  induction k as [|k IH]; intros st Hb.
  - simpl. unfold maxBackoff, second in *. lia.
  - cbn [replicate pollLoop_run snd].
    destruct (pollLoop_step_backoff false st Hb) as (Hstep & Hb').
    rewrite IH by exact Hb'. rewrite Hstep.
    rewrite Nat2Z.inj_succ, Z.pow_succ_r by lia.
    assert (0 < 2 ^ Z.of_nat k) by (apply Z.pow_pos_nonneg; lia).
    unfold maxBackoff, second in *. nia.
Qed.

Lemma pollLoop_run_bounds (oks : list bool) :
  forall st, second <= backoff st <= maxBackoff ->
    second <= backoff (snd (pollLoop_run oks st)) <= maxBackoff.
Proof.
  induction oks as [|ok oks IH]; intros st Hb; [exact Hb|].
  cbn [pollLoop_run snd]. apply IH. apply (pollLoop_step_backoff ok st Hb).
Qed.

(** The delay between two polls of the client stays between one second
    and thirty seconds in every run of the poll loop; after a poll that
    succeeded, [k] failed polls in a row leave it at [2^k] seconds, capped at
    thirty, and the next success sets it back to one second. *)
Theorem pollLoop_backoff (oks : list bool) (k : nat) :
  second <= backoff (snd (pollLoop_run oks pollLoop_init)) <= maxBackoff
  /\ backoff (snd (pollLoop_run (oks ++ [true] ++ replicate k false) pollLoop_init))
     = Z.min (2 ^ Z.of_nat k * second) maxBackoff
  /\ backoff (snd (pollLoop_run (oks ++ [true]) pollLoop_init)) = second.
Proof.
  assert (Hinit : second <= backoff pollLoop_init <= maxBackoff).
  { unfold pollLoop_init, maxBackoff, second. simpl. lia. }
  split; [now apply pollLoop_run_bounds|].
  assert (Hreset : forall st, backoff (snd (pollLoop_run [true] st)) = second).
  { intros st. reflexivity. }
  split.
  - rewrite pollLoop_run_app. cbn [snd]. rewrite pollLoop_run_app. cbn [snd].
    rewrite pollLoop_failures; rewrite Hreset; [reflexivity|].
    unfold maxBackoff, second. lia.
  - rewrite pollLoop_run_app. cbn [snd]. apply Hreset.
Qed.



End ClientMore.
